(** * TinyLisp (interpreter.c, version 0.0.0.0.8): value model, environments,
      evaluator and builtins, with the properties of its specification.

    The C program is embedded shallowly.  An [lval_t] becomes a value of the
    inductive type [lval]; the 64-bit union member shared by [num] and [dnum]
    is kept observable through [bits_of_double].  Additions, subtractions
    and multiplications of [long] wrap at 64 bits.  The native operations
    without a result (an integer division or remainder by zero or of
    [LONG_MIN] by -1, an index outside a cell array) return [Fault].  The
    recursion of the evaluator is bounded by a fuel argument; the functions
    that free their argument simply drop it. *)

From Stdlib Require Import ZArith List String Ascii Bool Lia.
From Stdlib Require Import SpecFloat.
From Stdlib Require DecimalString.
Import ListNotations.
Open Scope string_scope.
Open Scope Z_scope.

(** ** Native [long] and [int] arithmetic *)

Module Native.

Definition LONG_MIN : Z := - 2 ^ 63.
Definition LONG_MAX : Z := 2 ^ 63 - 1.
Definition INT_MAX : Z := 2 ^ 31 - 1.

(** Two's complement wrap-around of a 64-bit [long]. *)
Definition wrap64 (z : Z) : Z := (z + 2 ^ 63) mod 2 ^ 64 - 2 ^ 63.

(** Conversion of a [long] to [int], as in the call [ipow(x->num, y->num)]. *)
Definition wrap32 (z : Z) : Z := (z + 2 ^ 31) mod 2 ^ 32 - 2 ^ 31.

Definition in_long (z : Z) : Prop := LONG_MIN <= z <= LONG_MAX.

(** [x / y] on [long]: truncates toward zero; traps on a zero divisor and on
    the one overflowing quotient. *)
Definition ldiv (x y : Z) : option Z :=
  if y =? 0 then None
  else if (x =? LONG_MIN) && (y =? -1) then None
  else Some (Z.quot x y).

(** [x % y] on [long]: same trapping cases as the division. *)
Definition lrem (x y : Z) : option Z :=
  if y =? 0 then None
  else if (x =? LONG_MIN) && (y =? -1) then None
  else Some (Z.rem x y).

(** ** Doubles (IEEE 754 binary64) *)

Definition double : Type := spec_float.

Definition prec : Z := 53.
Definition emax : Z := 1024.

Definition dadd : double -> double -> double := SFadd prec emax.
Definition dsub : double -> double -> double := SFsub prec emax.
Definition dmul : double -> double -> double := SFmul prec emax.
Definition ddiv : double -> double -> double := SFdiv prec emax.
Definition dneg : double -> double := SFopp.
(** [op1 > op2] *)
Definition dgt (a b : double) : bool := SFltb b a.

(** [(double) n] for a [long] n, and the double [m * 2^e]. *)
Definition double_of_long (n : Z) : double := binary_normalize prec emax n 0 false.
Definition double_lit (m e : Z) : double := binary_normalize prec emax m e false.

(** The object representation of a double, read back as a [long]: what
    [x->num] holds after a write to [x->dnum] of the same union.  A NaN is
    given the bits of the default NaN of x86-64 arithmetic,
    0xfff8000000000000. *)
Definition bits_of_double (d : double) : Z :=
  let sgn (s : bool) (r : Z) := if s then r - 2 ^ 63 else r in
  match d with
  | S754_zero s => sgn s 0
  | S754_infinity s => sgn s (2047 * 2 ^ 52)
  | S754_nan => 2047 * 2 ^ 52 + 2 ^ 51 - 2 ^ 63
  | S754_finite s m e =>
      if Z.pos m <? 2 ^ 52 then sgn s (Z.pos m)
      else sgn s ((e + 1075) * 2 ^ 52 + (Z.pos m - 2 ^ 52))
  end.

End Native.
Import Native.

(** ** Values *)

(** The native operations an [lbuiltin] function pointer can refer to: the
    functions registered by [lenv_add_builtins]. *)
Inductive lbuiltin : Type :=
| builtin_list_p | builtin_head_p | builtin_tail_p | builtin_eval_p
| builtin_join_p | builtin_cons_p | builtin_len_p | builtin_init_p
| builtin_lambda_p | builtin_def_p | builtin_put_p
| builtin_add_p | builtin_sub_p | builtin_mul_p | builtin_div_p
| builtin_mod_p | builtin_pow_p | builtin_min_p | builtin_max_p.

(** [struct lval] by its [type] tag, and [struct lenv].  A value tagged
    [LVAL_NUM] carries the union read as [long]; one tagged [LVAL_FLOAT] the
    union read as [double].  [LVAL_FUN] is split on [builtin] being set.
    The parallel arrays [syms] and [vals] of an environment are one list of
    pairs.  [par] is the parent scope: the evaluator threads the current
    scope, and after a call gets the caller's scope back from the callee's
    parent ([caller_env]). *)
#[local] Unset Elimination Schemes.
Inductive lval : Type :=
| Num (num : Z)
| Flt (dnum : double)
| Err (err : string)
| Sym (sym : string)
| Sexpr (cell : list lval)
| Qexpr (cell : list lval)
| Fun (builtin : lbuiltin)
| Lambda (env : lenv) (formals body : lval)
with lenv : Type :=
| Lenv (par : option lenv) (binds : list (string * lval)).
#[local] Set Elimination Schemes.

Definition par (e : lenv) : option lenv := let 'Lenv p _ := e in p.
Definition binds (e : lenv) : list (string * lval) := let 'Lenv _ b := e in b.

(** [v->type], for [ltype_name]. *)
Inductive var_t : Type :=
| LVAL_NUM | LVAL_FLOAT | LVAL_ERR | LVAL_SYM | LVAL_SEXPR | LVAL_QEXPR | LVAL_FUN.

Definition type_of (v : lval) : var_t :=
  match v with
  | Num _ => LVAL_NUM | Flt _ => LVAL_FLOAT | Err _ => LVAL_ERR
  | Sym _ => LVAL_SYM | Sexpr _ => LVAL_SEXPR | Qexpr _ => LVAL_QEXPR
  | Fun _ | Lambda _ _ _ => LVAL_FUN
  end.

Definition ltype_name (t : var_t) : string :=
  match t with
  | LVAL_FUN => "Function"
  | LVAL_NUM => "Number"
  | LVAL_ERR => "Error"
  | LVAL_SYM => "Symbol"
  | LVAL_SEXPR => "S-Expression"
  | LVAL_QEXPR => "Q-Expression"
  | LVAL_FLOAT => "Unknown"
  end.

Definition is_err (v : lval) : bool :=
  match v with Err _ => true | _ => false end.

Definition is_number (v : lval) : bool :=
  match v with Num _ | Flt _ => true | _ => false end.

Definition is_qexpr (v : lval) : bool :=
  match v with Qexpr _ => true | _ => false end.

Definition is_sym (v : lval) : bool :=
  match v with Sym _ => true | _ => false end.

(** [lval_err]: the formatted message is cut at 510 characters by
    [vsnprintf(v->err, 511, ...)]. *)
Definition lval_err (msg : string) : lval := Err (String.substring 0 510 msg).

(** [%i] of [printf]. *)
Definition fmt_int (z : Z) : string :=
  DecimalString.NilZero.string_of_int (Z.to_int z).

Definition lenv_new : lenv := Lenv None [].

(** [lval_lambda] *)
Definition lval_lambda (formals body : lval) : lval := Lambda lenv_new formals body.

(** ** Outcomes of a computation *)

(** [Ret]: the C function returned; [Fault]: it performed a trapping native
    operation or an out-of-range array access; [Timeout]: the fuel bounding
    the recursion of the model was exhausted. *)
Inductive outcome (A : Type) : Type :=
| Ret (a : A)
| Fault
| Timeout.
Arguments Ret {A} a.
Arguments Fault {A}.
Arguments Timeout {A}.

Definition bind {A B : Type} (m : outcome A) (k : A -> outcome B) : outcome B :=
  match m with
  | Ret a => k a
  | Fault => Fault
  | Timeout => Timeout
  end.

Notation "x <- m ;; k" := (bind m (fun x => k))
  (at level 61, m at next level, right associativity).
Notation "' p <- m ;; k" := (bind m (fun x => let p := x in k))
  (at level 61, p pattern, m at next level, right associativity).

(** ** Cell arrays *)

(** [lval_pop(v, i)] on the cell array of [v]: the element at [i] and the
    shrunk array; an index outside [0, count) is an out-of-range access. *)
Fixpoint pop_nat (cells : list lval) (i : nat) : option (lval * list lval) :=
  match cells, i with
  | [], _ => None
  | x :: rest, O => Some (x, rest)
  | x :: rest, S j =>
      match pop_nat rest j with
      | Some (y, rest') => Some (y, x :: rest')
      | None => None
      end
  end.

Definition lval_pop (cells : list lval) (i : Z) : outcome (lval * list lval) :=
  if i <? 0 then Fault
  else match pop_nat cells (Z.to_nat i) with
       | Some r => Ret r
       | None => Fault
       end.

(** [lval_take(v, i)]: pop, then the emptied container is destroyed. *)
Definition lval_take (cells : list lval) (i : Z) : outcome lval :=
  '(x, _) <- lval_pop cells i ;; Ret x.

(** [lval_add] *)
Definition lval_add (cells : list lval) (x : lval) : list lval := cells ++ [x].

(** [v->count] of a list value. *)
Definition count (cells : list lval) : Z := Z.of_nat (List.length cells).

(** [v->cell] of a list value, and the same value with another cell array. *)
Definition cells (v : lval) : list lval :=
  match v with
  | Sexpr c | Qexpr c => c
  | _ => []
  end.

Definition with_cells (v : lval) (c : list lval) : lval :=
  match v with
  | Sexpr _ => Sexpr c
  | Qexpr _ => Qexpr c
  | _ => v
  end.

(** A read of [a->cell[i]]. *)
Definition cell_at (a : list lval) (i : nat) : outcome lval :=
  match nth_error a i with
  | Some x => Ret x
  | None => Fault
  end.

(** ** Integer power *)

(** The loop of [ipow]; it halves a positive [int], so 31 rounds exhaust any
    exponent (lemma [ipow_loop_enough]). *)
Fixpoint ipow_loop (rounds : nat) (res base exp : Z) : Z :=
  match rounds with
  | O => res
  | S n =>
      if 0 <? exp then
        ipow_loop n (if Z.rem exp 2 =? 1 then wrap64 (res * base) else res)
                  (wrap64 (base * base)) (Z.quot exp 2)
      else res
  end.

Definition ipow (base exp : Z) : Z := ipow_loop 31 1 base exp.

(** Iterative multiplication of [b] with itself [e] times, on [long]. *)
Fixpoint pow_iter (b : Z) (e : nat) : Z :=
  match e with
  | O => 1
  | S n => wrap64 (pow_iter b n * b)
  end.

(** ** The interpreter *)

Section Interpreter.

(** [fmod] and [pow] of the C mathematics library. *)
Variable fmod : double -> double -> double.
Variable pow : double -> double -> double.
(** The content of the [dnum] member of a freshly allocated [lval_t] that
    has not been written.  Every allocation has a content of its own; the
    one double stands for the content met by the copy that a statement
    observes, and the statements that compare two copies or two lookups
    are made for values that hold no double. *)
Variable indet : double.

(** *** Copies and environments *)

Fixpoint lval_copy (v : lval) : lval :=
  match v with
  | Fun b => Fun b
  | Lambda env formals body =>
      Lambda (lenv_copy env) (lval_copy formals) (lval_copy body)
  | Num n => Num n
  | Err s => Err s
  | Sym s => Sym s
  | Sexpr cell => Sexpr (map lval_copy cell)
  | Qexpr cell => Qexpr (map lval_copy cell)
  (* no case for LVAL_FLOAT: only [x->type] is set *)
  | Flt _ => Flt indet
  end
with lenv_copy (e : lenv) : lenv :=
  match e with
  | Lenv p b => Lenv p (map (fun sv => (fst sv, lval_copy (snd sv))) b)
  end.

Fixpoint lenv_get (e : lenv) (k : string) : lval :=
  match e with
  | Lenv p b =>
      match find (fun sv => (fst sv =? k)%string) b with
      | Some sv => lval_copy (snd sv)
      | None =>
          match p with
          | Some pe => lenv_get pe k
          | None => lval_err ("Unbound Symbol '" ++ k ++ "'")
          end
      end
  end.

(** The scan of [lenv_put] over [syms]/[vals]; [x] is the copy to store. *)
Fixpoint put_binds (b : list (string * lval)) (k : string) (x : lval)
  : list (string * lval) :=
  match b with
  | [] => [(k, x)]
  | (s, old) :: rest =>
      if (s =? k)%string then (s, x) :: rest
      else (s, old) :: put_binds rest k x
  end.

Definition lenv_put (e : lenv) (k : string) (v : lval) : lenv :=
  Lenv (par e) (put_binds (binds e) k (lval_copy v)).

Fixpoint lenv_def (e : lenv) (k : string) (v : lval) : lenv :=
  match e with
  | Lenv (Some p) b => Lenv (Some (lenv_def p k v)) b
  | Lenv None b => lenv_put e k v
  end.

(** *** Arithmetic builtins *)

(** The chain of [strcmp] tests of the branch with a double operand; [None]
    when no test matches and [x->dnum] is left alone. *)
Definition float_op (op : string) (op1 op2 : double) : option double :=
  if (op =? "+")%string then Some (dadd op1 op2)
  else if (op =? "-")%string then Some (dsub op1 op2)
  else if (op =? "*")%string then Some (dmul op1 op2)
  else if (op =? "/")%string then Some (ddiv op1 op2)
  else if (op =? "%")%string then Some (fmod op1 op2)
  else if (op =? "^")%string then Some (pow op1 op2)
  else if (op =? "min")%string then Some (if dgt op1 op2 then op2 else op1)
  else if (op =? "max")%string then Some (if dgt op1 op2 then op1 else op2)
  else None.

(** The assignment [x->dnum = r]: it writes the union and leaves [x->type]
    as it is, so a value tagged [LVAL_NUM] keeps that tag and its [num] now
    reads the bits of [r]. *)
Definition set_dnum (x : lval) (r : double) : lval :=
  match x with
  | Num _ => Num (bits_of_double r)
  | Flt _ => Flt r
  | _ => x
  end.

(** One round of the [while] loop of [builtin_op]. *)
Inductive round : Type :=
| Next (x : lval)     (* falls through to [lval_del(y)] and loops *)
| Break (x : lval)    (* [break] *)
| Trap.               (* the native operation traps *)

Definition long_op (op : string) (a b : Z) : round :=
  if (op =? "+")%string then Next (Num (wrap64 (a + b)))
  else if (op =? "-")%string then Next (Num (wrap64 (a - b)))
  else if (op =? "*")%string then Next (Num (wrap64 (a * b)))
  else if (op =? "/")%string then
    if b =? 0 then Break (lval_err "Division By Zero!")
    else match ldiv a b with Some q => Next (Num q) | None => Trap end
  else if (op =? "%")%string then
    match lrem a b with Some r => Next (Num r) | None => Trap end
  else if (op =? "^")%string then Next (Num (ipow a (wrap32 b)))
  else if (op =? "min")%string then Next (Num (if a >? b then b else a))
  else if (op =? "max")%string then Next (Num (if a >? b then a else b))
  else Next (Num a).

Definition op_round (op : string) (x y : lval) : round :=
  let with_doubles (op1 op2 : double) :=
    match float_op op op1 op2 with
    | Some r => Next (set_dnum x r)
    | None => Next x
    end in
  match x, y with
  | Flt a, Num b => with_doubles a (double_of_long b)
  | Num a, Flt b => with_doubles (double_of_long a) b
  | Flt a, Flt b => with_doubles a b
  | Num a, Num b => long_op op a b
  | _, _ => Next x
  end.

Fixpoint op_loop (op : string) (x : lval) (a : list lval) : outcome lval :=
  match a with
  | [] => Ret x
  | y :: a' =>
      match op_round op x y with
      | Next x' => op_loop op x' a'
      | Break x' => Ret x'
      | Trap => Fault
      end
  end.

(** The unary negation of [builtin_op]. *)
Definition negate (x : lval) : lval :=
  match x with
  | Num n => Num (wrap64 (- n))
  | Flt d => Flt (dneg d)
  | _ => x
  end.

Definition builtin_op (a : list lval) (op : string) : outcome lval :=
  if forallb is_number a then
    '(x, a) <- lval_pop a 0 ;;
    let x := if (op =? "-")%string && (count a =? 0) then negate x else x in
    op_loop op x a
  else Ret (lval_err "Cannot operate on non-number!").

(** *** List builtins *)

(** [while (v->count > 1) { lval_del(lval_pop(v, 1)); }]; each round removes
    one cell, so [count] rounds are never exceeded. *)
Fixpoint head_loop (rounds : nat) (c : list lval) : outcome (list lval) :=
  match rounds with
  | O => Ret c
  | S n =>
      if count c >? 1 then '(_, c') <- lval_pop c 1 ;; head_loop n c'
      else Ret c
  end.

Definition builtin_head (a : list lval) : outcome lval :=
  if negb (count a =? 1) then
    Ret (lval_err "Function 'head' passed too many arguments!")
  else
    c0 <- cell_at a 0 ;;
    if negb (is_qexpr c0) then
      Ret (lval_err "Function 'head' passed incorrect type!")
    else if count (cells c0) =? 0 then
      Ret (lval_err "Function 'head' passed {}!")
    else
      v <- lval_take a 0 ;;
      c <- head_loop (List.length (cells v)) (cells v) ;;
      Ret (with_cells v c).

Definition builtin_tail (a : list lval) : outcome lval :=
  if negb (count a =? 1) then
    Ret (lval_err "Function 'tail' passed too many arguments!")
  else
    c0 <- cell_at a 0 ;;
    if negb (is_qexpr c0) then
      Ret (lval_err "Function 'tail' passed incorrect type!")
    else if count (cells c0) =? 0 then
      Ret (lval_err "Function 'tail' passed {}!")
    else
      v <- lval_take a 0 ;;
      '(_, c) <- lval_pop (cells v) 0 ;;
      Ret (with_cells v c).

Definition builtin_list (a : list lval) : lval := Qexpr a.

(** [lval_join]: every cell of [y] is popped from its front and added to
    the end of [x]. *)
Definition lval_join (x y : lval) : lval :=
  with_cells x (fold_left lval_add (cells y) (cells x)).

Definition builtin_join (a : list lval) : outcome lval :=
  if forallb is_qexpr a then
    '(x, a) <- lval_pop a 0 ;;
    Ret (fold_left lval_join a x)
  else Ret (lval_err "Function 'join' passed incorrect type.").

(** [lval_take(a, 0)] leaves [a] with a count of 0 and frees it; the index
    of the following pop is computed from that count. *)
Definition builtin_init (a : list lval) : outcome lval :=
  if negb (count a =? 1) then
    Ret (lval_err "Function 'init' passed too many arguments!")
  else
    c0 <- cell_at a 0 ;;
    if negb (is_qexpr c0) then
      Ret (lval_err "Function 'init' passed incorrect type!")
    else if count (cells c0) =? 0 then
      Ret (lval_err "Function 'init' passed {}!")
    else
      '(v, a) <- lval_pop a 0 ;;
      '(_, c) <- lval_pop (cells v) (count a - 1) ;;
      Ret (with_cells v c).

Definition builtin_len (a : list lval) : outcome lval :=
  if negb (count a =? 1) then
    Ret (lval_err "Function 'len' passed too many arguments!")
  else
    c0 <- cell_at a 0 ;;
    if negb (is_qexpr c0) then
      Ret (lval_err "Function 'len' passed incorrect type!")
    else if count (cells c0) =? 0 then
      Ret (lval_err "Function 'len' passed {}!")
    else
      v <- lval_take a 0 ;;
      Ret (Num (count (cells v))).

Definition builtin_cons (a : list lval) : outcome lval :=
  if negb (count a =? 2) then
    Ret (lval_err "Function 'cons' passed wrong number of arguments!")
  else
    c1 <- cell_at a 1 ;;
    if negb (is_qexpr c1) then
      Ret (lval_err "Function 'cons' passed incorrect type for second argument!")
    else
      '(val, a) <- lval_pop a 0 ;;
      qexpr <- lval_take a 0 ;;
      Ret (with_cells qexpr (val :: cells qexpr)).

(** *** Binding builtins *)

(** The message of [LASSERT_TYPE]. *)
Definition type_msg (func : string) (index : Z) (got expect : var_t) : string :=
  "Function '" ++ func ++ "' passed incorrect type for argument "
  ++ fmt_int index ++ ". Got " ++ ltype_name got
  ++ ", Expected " ++ ltype_name expect ++ ".".

(** The message of [LASSERT_NUM]. *)
Definition num_msg (func : string) (got expect : Z) : string :=
  "Function '" ++ func ++ "' passed incorrect number of arguments. Got "
  ++ fmt_int got ++ ", Expected " ++ fmt_int expect ++ ".".

(** [k->sym] of a value that is a symbol. *)
Definition sym_name (k : lval) : outcome string :=
  match k with
  | Sym s => Ret s
  | _ => Fault
  end.

Definition builtin_lambda (a : list lval) : outcome lval :=
  if negb (count a =? 2) then Ret (lval_err (num_msg "\" (count a) 2))
  else
    c0 <- cell_at a 0 ;;
    if negb (is_qexpr c0) then
      Ret (lval_err (type_msg "\" 0 (type_of c0) LVAL_QEXPR))
    else
      c1 <- cell_at a 1 ;;
      if negb (is_qexpr c1) then
        Ret (lval_err (type_msg "\" 1 (type_of c1) LVAL_QEXPR))
      else
        match find (fun v => negb (is_sym v)) (cells c0) with
        | Some bad =>
            Ret (lval_err ("Cannot define non-symbol. Got "
                           ++ ltype_name (type_of bad) ++ ", Expected "
                           ++ ltype_name LVAL_SYM ++ "."))
        | None =>
            '(formals, a) <- lval_pop a 0 ;;
            '(body, a) <- lval_pop a 0 ;;
            Ret (lval_lambda formals body)
        end.

(** The last loop of [builtin_var]: [syms->cell[i]] is defined as
    [a->cell[i+1]]. *)
Fixpoint var_loop (func : string) (e : lenv) (syms vals : list lval)
  : outcome lenv :=
  match syms, vals with
  | k :: syms', v :: vals' =>
      s <- sym_name k ;;
      let e := if (func =? "def")%string then lenv_def e s v else e in
      let e := if (func =? "=")%string then lenv_put e s v else e in
      var_loop func e syms' vals'
  | [], _ => Ret e
  | _ :: _, [] => Fault
  end.

Definition builtin_var (e : lenv) (a : list lval) (func : string)
  : outcome (lenv * lval) :=
  c0 <- cell_at a 0 ;;
  if negb (is_qexpr c0) then
    Ret (e, lval_err (type_msg func 0 (type_of c0) LVAL_QEXPR))
  else
    let syms := cells c0 in
    match find (fun v => negb (is_sym v)) syms with
    | Some bad =>
        Ret (e, lval_err ("Function '" ++ func ++ "' cannot define non-symbol. Got "
                          ++ ltype_name (type_of bad) ++ ", Expected "
                          ++ ltype_name LVAL_SYM ++ "."))
    | None =>
        if negb (count syms =? count a - 1) then
          Ret (e, lval_err ("Function '" ++ func
                            ++ "' passed too many arguments for symbols. Got "
                            ++ fmt_int (count syms) ++ ", Expected "
                            ++ fmt_int (count a - 1) ++ "."))
        else
          e' <- var_loop func e syms (tl a) ;;
          Ret (e', Sexpr [])
    end.

(** *** Evaluation and function application *)

(** The functions below call each other through [lval_eval]; they take the
    evaluator of the nested calls as [ev], and [lval_eval] closes the knot. *)
Section Eval.

Variable ev : lenv -> lval -> outcome (lenv * lval).

Definition builtin_eval (e : lenv) (a : list lval) : outcome (lenv * lval) :=
  if negb (count a =? 1) then
    Ret (e, lval_err "Function 'eval' passed too many arguments!")
  else
    c0 <- cell_at a 0 ;;
    if negb (is_qexpr c0) then
      Ret (e, lval_err "Function 'eval' passed incorrect type!")
    else
      x <- lval_take a 0 ;;
      ev e (Sexpr (cells x)).

(** The call [f->builtin(e, a)]. *)
Definition call_builtin (b : lbuiltin) (e : lenv) (a : list lval)
  : outcome (lenv * lval) :=
  let pure (r : outcome lval) := v <- r ;; Ret (e, v) in
  match b with
  | builtin_list_p => Ret (e, builtin_list a)
  | builtin_head_p => pure (builtin_head a)
  | builtin_tail_p => pure (builtin_tail a)
  | builtin_eval_p => builtin_eval e a
  | builtin_join_p => pure (builtin_join a)
  | builtin_cons_p => pure (builtin_cons a)
  | builtin_len_p => pure (builtin_len a)
  | builtin_init_p => pure (builtin_init a)
  | builtin_lambda_p => pure (builtin_lambda a)
  | builtin_def_p => builtin_var e a "def"
  | builtin_put_p => builtin_var e a "="
  | builtin_add_p => pure (builtin_op a "+")
  | builtin_sub_p => pure (builtin_op a "-")
  | builtin_mul_p => pure (builtin_op a "*")
  | builtin_div_p => pure (builtin_op a "/")
  | builtin_mod_p => pure (builtin_op a "%")
  | builtin_pow_p => pure (builtin_op a "^")
  | builtin_min_p => pure (builtin_op a "min")
  | builtin_max_p => pure (builtin_op a "max")
  end.

(** How the [while (a->count)] loop of [lval_call] ends: by a [return] of
    an error, or with the closure's environment and what is left of its
    formals. *)
Inductive binding : Type :=
| Returned (err : lval)
| Bound (fenv : lenv) (formals : list lval).

Fixpoint bind_loop (fenv : lenv) (formals a : list lval) (given total : Z)
  : outcome binding :=
  match a with
  | [] => Ret (Bound fenv formals)
  | val :: a' =>
      match formals with
      | [] =>
          Ret (Returned (lval_err ("Function passed too many arguments. Got "
                                   ++ fmt_int given ++ ", Expected "
                                   ++ fmt_int total ++ ".")))
      | k :: formals' =>
          s <- sym_name k ;;
          if (s =? "&")%string then
            if negb (count formals' =? 1) then
              Ret (Returned (lval_err
                "Function format invalid. Symbol '&' not followed by single symbol."))
            else
              '(nsym, formals'') <- lval_pop formals' 0 ;;
              n <- sym_name nsym ;;
              Ret (Bound (lenv_put fenv n (builtin_list a)) formals'')
          else
            bind_loop (lenv_put fenv s val) formals' a' given total
      end
  end.

(** After a call the caller goes on with the environment [e] points to; the
    closure's environment was linked to it by [f->env->par = e]. *)
Definition caller_env (fenv e : lenv) : lenv :=
  match par fenv with
  | Some p => p
  | None => e
  end.

Definition lval_call (e : lenv) (f : lval) (a : list lval)
  : outcome (lenv * lval) :=
  match f with
  | Fun b => call_builtin b e a
  | Lambda fenv formals body =>
      let given := count a in
      let total := count (cells formals) in
      r <- bind_loop fenv (cells formals) a given total ;;
      match r with
      | Returned err => Ret (e, err)
      | Bound fenv fcells =>
          (* if '&' remains in the formal list, bind it to the empty list *)
          r <- match fcells with
               | k :: _ =>
                   s <- sym_name k ;;
                   if (s =? "&")%string then
                     if negb (count fcells =? 2) then
                       Ret (Returned (lval_err
                         "Function format invalid. Symbol '&' not followed by single symbol."))
                     else
                       '(_, fcells) <- lval_pop fcells 0 ;;
                       '(k, fcells) <- lval_pop fcells 0 ;;
                       s <- sym_name k ;;
                       Ret (Bound (lenv_put fenv s (Qexpr [])) fcells)
                   else Ret (Bound fenv fcells)
               | [] => Ret (Bound fenv fcells)
               end ;;
          match r with
          | Returned err => Ret (e, err)
          | Bound fenv fcells =>
              if count fcells =? 0 then
                let fenv := Lenv (Some e) (binds fenv) in
                '(fenv, v) <- builtin_eval fenv (lval_add [] (lval_copy body)) ;;
                Ret (caller_env fenv e, v)
              else
                Ret (e, lval_copy (Lambda fenv (with_cells formals fcells) body))
          end
      end
  | _ => Fault
  end.

(** The first loop of [lval_eval_sexpr]. *)
Fixpoint eval_cells (e : lenv) (c : list lval) : outcome (lenv * list lval) :=
  match c with
  | [] => Ret (e, [])
  | x :: rest =>
      '(e, x') <- ev e x ;;
      '(e, rest') <- eval_cells e rest ;;
      Ret (e, x' :: rest')
  end.

Definition lval_eval_sexpr (e : lenv) (c : list lval) : outcome (lenv * lval) :=
  '(e, c) <- eval_cells e c ;;
  match find is_err c with
  | Some err => Ret (e, err)
  | None =>
      if count c =? 0 then Ret (e, Sexpr c)
      else if count c =? 1 then v <- lval_take c 0 ;; Ret (e, v)
      else
        '(f, c) <- lval_pop c 0 ;;
        match type_of f with
        | LVAL_FUN => lval_call e f c
        | t =>
            Ret (e, lval_err ("S-Expression starts with incorrect type. Got "
                              ++ ltype_name t ++ ", Expected "
                              ++ ltype_name LVAL_FUN ++ "."))
        end
  end.

Definition eval_dispatch (e : lenv) (v : lval) : outcome (lenv * lval) :=
  match v with
  | Sym s => Ret (e, lenv_get e s)
  | Sexpr c => lval_eval_sexpr e c
  | _ => Ret (e, v)
  end.

End Eval.

(** [lval_eval]; [fuel] bounds the depth of nested calls of [lval_eval]. *)
Fixpoint lval_eval (fuel : nat) (e : lenv) (v : lval) : outcome (lenv * lval) :=
  match fuel with
  | O => Timeout
  | S n => eval_dispatch (lval_eval n) e v
  end.

(** *** The global environment *)

Definition lenv_add_builtin (e : lenv) (name : string) (func : lbuiltin) : lenv :=
  lenv_put e name (Fun func).

Definition lenv_add_builtins (e : lenv) : lenv :=
  fold_left (fun e nf => lenv_add_builtin e (fst nf) (snd nf))
    [ ("list", builtin_list_p); ("head", builtin_head_p);
      ("tail", builtin_tail_p); ("eval", builtin_eval_p);
      ("join", builtin_join_p); ("cons", builtin_cons_p);
      ("len", builtin_len_p); ("init", builtin_init_p);
      ("\", builtin_lambda_p); ("def", builtin_def_p); ("=", builtin_put_p);
      ("+", builtin_add_p); ("-", builtin_sub_p); ("*", builtin_mul_p);
      ("/", builtin_div_p); ("%", builtin_mod_p); ("^", builtin_pow_p);
      ("min", builtin_min_p); ("max", builtin_max_p) ]
    e.

(** The environment [main] evaluates in. *)
Definition global_env : lenv := lenv_add_builtins lenv_new.

(** *** Values without a double *)

Fixpoint float_free (v : lval) : bool :=
  match v with
  | Flt _ => false
  | Sexpr c | Qexpr c => forallb float_free c
  | Lambda env formals body =>
      lenv_float_free env && float_free formals && float_free body
  | Num _ | Err _ | Sym _ | Fun _ => true
  end
with lenv_float_free (e : lenv) : bool :=
  match e with
  | Lenv _ b => forallb (fun sv => float_free (snd sv)) b
  end.

(** Induction on values, with the cells of a list and the bindings of a
    captured environment as induction hypotheses. *)
Section Induction.

Variable P : lval -> Prop.
Variable Q : lenv -> Prop.
Hypothesis HNum : forall n, P (Num n).
Hypothesis HFlt : forall d, P (Flt d).
Hypothesis HErr : forall s, P (Err s).
Hypothesis HSym : forall s, P (Sym s).
Hypothesis HSexpr : forall c, Forall P c -> P (Sexpr c).
Hypothesis HQexpr : forall c, Forall P c -> P (Qexpr c).
Hypothesis HFun : forall b, P (Fun b).
Hypothesis HLambda : forall env f b, Q env -> P f -> P b -> P (Lambda env f b).
Hypothesis HLenv : forall p b, Forall (fun sv => P (snd sv)) b -> Q (Lenv p b).

Fixpoint lval_induction (v : lval) : P v :=
  match v with
  | Num n => HNum n
  | Flt d => HFlt d
  | Err s => HErr s
  | Sym s => HSym s
  | Sexpr c =>
      HSexpr c ((fix cells_ok (l : list lval) : Forall P l :=
                   match l with
                   | [] => Forall_nil P
                   | x :: r => Forall_cons x (lval_induction x) (cells_ok r)
                   end) c)
  | Qexpr c =>
      HQexpr c ((fix cells_ok (l : list lval) : Forall P l :=
                   match l with
                   | [] => Forall_nil P
                   | x :: r => Forall_cons x (lval_induction x) (cells_ok r)
                   end) c)
  | Fun b => HFun b
  | Lambda env f b =>
      HLambda env f b (lenv_induction env) (lval_induction f) (lval_induction b)
  end
with lenv_induction (e : lenv) : Q e :=
  match e with
  | Lenv p b =>
      HLenv p b
        ((fix binds_ok (l : list (string * lval))
            : Forall (fun sv => P (snd sv)) l :=
            match l with
            | [] => Forall_nil _
            | sv :: r =>
                Forall_cons sv
                  (match sv as s return P (snd s) with
                   | (_, x) => lval_induction x
                   end)
                  (binds_ok r)
            end) b)
  end.

End Induction.

(** The environment of a closure once [names] are bound to [args] in
    order, each by [lenv_put]. *)
Definition put_all (fenv : lenv) (names : list string) (args : list lval) : lenv :=
  fold_left (fun env sv => lenv_put env (fst sv) (snd sv)) (combine names args) fenv.

(** No name of the list is the variadic marker. *)
Definition no_marker (names : list string) : bool :=
  forallb (fun s => negb (s =? "&")%string) names.

(** Induction along the parent links of a scope. *)
Section ChainInduction.

Variable P : lenv -> Prop.
Hypothesis Hroot : forall b, P (Lenv None b).
Hypothesis Hchild : forall p b, P p -> P (Lenv (Some p) b).

Fixpoint lenv_chain_induction (e : lenv) : P e :=
  match e with
  | Lenv None b => Hroot b
  | Lenv (Some p) b => Hchild p b (lenv_chain_induction p)
  end.

End ChainInduction.

(** A name is bound in the scope itself; in the scope or one of its
    ancestors; in a scope other than the root of the chain. *)
Definition bound_here (k : string) (e : lenv) : bool :=
  existsb (fun sv => (fst sv =? k)%string) (binds e).

Fixpoint bound (k : string) (e : lenv) : bool :=
  match e with
  | Lenv None b => existsb (fun sv => (fst sv =? k)%string) b
  | Lenv (Some p) b => existsb (fun sv => (fst sv =? k)%string) b || bound k p
  end.

Fixpoint shadowed (k : string) (e : lenv) : bool :=
  match e with
  | Lenv None _ => false
  | Lenv (Some p) b => existsb (fun sv => (fst sv =? k)%string) b || shadowed k p
  end.

(** The names of a scope, in the order of [syms]. *)
Definition names_of (e : lenv) : list string := map fst (binds e).

(** The environment after [names] are defined as [vals] in order, each by
    [lenv_def]. *)
Definition def_all (e : lenv) (names : list string) (vals : list lval) : lenv :=
  fold_left (fun env sv => lenv_def env (fst sv) (snd sv)) (combine names vals) e.

(** A value that [lval_eval] returns as it is. *)
Definition self_evaluating (v : lval) : bool :=
  match v with
  | Sym _ | Sexpr _ => false
  | _ => true
  end.

(** *** Inputs of the worked examples *)

(** [2.0] and [2.5]. *)
Definition two : double := double_lit 2 0.
Definition two_and_half : double := double_lit 5 (-1).

(** [(\ {x y} {+ x y})] *)
Definition add_xy : lval :=
  Sexpr [Sym "\"; Qexpr [Sym "x"; Sym "y"]; Qexpr [Sym "+"; Sym "x"; Sym "y"]].

(** [(\ {x & xs} {xs})] *)
Definition rest_xs : lval :=
  Sexpr [Sym "\"; Qexpr [Sym "x"; Sym "&"; Sym "xs"]; Qexpr [Sym "xs"]].

(** [(\ {& a b} {a})] *)
Definition bad_variadic : lval :=
  Sexpr [Sym "\"; Qexpr [Sym "&"; Sym "a"; Sym "b"]; Qexpr [Sym "a"]].

(** The worked examples that are stated for one instance of the
    mathematics library and of the unwritten double use these; none of them
    reaches [fmod] or [pow]. *)
Definition any_libm (a b : double) : double := S754_nan.
Definition zeroed : double := S754_zero false.

(** The result of an evaluation, without the environment. *)
Definition value_of (r : outcome (lenv * lval)) : outcome lval :=
  '(_, v) <- r ;; Ret v.

(** * Properties *)

(** ** Cell arrays and list builtins *)

Lemma count_cons (x : lval) (c : list lval) : count (x :: c) = count c + 1.
Proof. unfold count. cbn [List.length]. lia. Qed.

Lemma count_nonneg (c : list lval) : 0 <= count c.
Proof. unfold count. lia. Qed.

Lemma head_loop_first (n : nat) (x : lval) (c : list lval) :
  (List.length c <= n)%nat -> head_loop n (x :: c) = Ret [x].
Proof.
  revert c. induction n as [|n IH]; intros c Hn.
  - destruct c; [reflexivity | cbn in Hn; lia].
  - destruct c as [|y c]; [reflexivity |].
    cbn [head_loop].
    replace (count (x :: y :: c) >? 1) with true.
    + cbn. apply IH. cbn in Hn. lia.
    + symmetry. apply Z.gtb_lt. rewrite !count_cons. pose proof (count_nonneg c). lia.
Qed.

(** C10: for every non-empty QExpr [q] passed as the sole argument, [head]
    returns a QExpr that holds exactly the first element of [q]: a list of
    one element, not the element itself; the other elements are dropped. *)
Theorem builtin_head_singleton (x : lval) (q : list lval) :
  builtin_head [Qexpr (x :: q)] = Ret (Qexpr [x]).
Proof.
  unfold builtin_head.
  cbn [count List.length Z.of_nat Z.eqb negb cell_at nth_error bind is_qexpr cells].
  replace (count (x :: q) =? 0) with false.
  - change (lval_take [Qexpr (x :: q)] 0) with (Ret (Qexpr (x :: q))).
    cbn [bind cells]. rewrite head_loop_first by (cbn; lia). reflexivity.
  - symmetry. apply Z.eqb_neq. rewrite count_cons. pose proof (count_nonneg q). lia.
Qed.

(** C3 as the code has it: [len] rejects the empty QExpr with an Error, as
    [head], [tail] and [init] do; for every non-empty QExpr [q], [(len q)]
    is the Integer number of elements of [q]. *)
Theorem builtin_len_counts (x : lval) (q : list lval) :
  builtin_len [Qexpr []] = Ret (Err "Function 'len' passed {}!")
  /\ builtin_len [Qexpr (x :: q)] = Ret (Num (Z.of_nat (List.length (x :: q)))).
Proof.
  split; [reflexivity |].
  unfold builtin_len.
  cbn [count List.length Z.of_nat Z.eqb negb cell_at nth_error bind is_qexpr cells].
  replace (Z.of_nat (S (List.length q)) =? 0) with false.
  - reflexivity.
  - symmetry. apply Z.eqb_neq. lia.
Qed.

(** C3 as stated fails: [len {}] is an Error, not the Integer 0. *)
Lemma builtin_len_empty_not_zero :
  builtin_len [Qexpr []] <> Ret (Num 0).
Proof. discriminate. Qed.

(** ** Integer power *)

Lemma wrap64_mod (a b : Z) :
  a mod 2 ^ 64 = b mod 2 ^ 64 -> wrap64 a = wrap64 b.
Proof.
  intros H. unfold wrap64.
  rewrite <- (Zplus_mod_idemp_l a), <- (Zplus_mod_idemp_l b), H. reflexivity.
Qed.

Lemma wrap64_eqm (a : Z) : wrap64 a mod 2 ^ 64 = a mod 2 ^ 64.
Proof.
  unfold wrap64.
  rewrite Zminus_mod, Zmod_mod, <- Zminus_mod.
  f_equal. lia.
Qed.

Lemma wrap64_idem (a : Z) : wrap64 (wrap64 a) = wrap64 a.
Proof. apply wrap64_mod, wrap64_eqm. Qed.

Lemma wrap64_mul_l (a b : Z) : wrap64 (wrap64 a * b) = wrap64 (a * b).
Proof.
  apply wrap64_mod.
  rewrite Zmult_mod, wrap64_eqm, <- Zmult_mod. reflexivity.
Qed.

Lemma wrap64_mul_pow (a b q : Z) :
  wrap64 (a * wrap64 b ^ q) = wrap64 (a * b ^ q).
Proof.
  apply wrap64_mod.
  rewrite Zmult_mod, <- Z.mod_pow_l, wrap64_eqm, Z.mod_pow_l, <- Zmult_mod.
  reflexivity.
Qed.

Lemma wrap64_small (a : Z) : LONG_MIN <= a <= LONG_MAX -> wrap64 a = a.
Proof.
  unfold wrap64, LONG_MIN, LONG_MAX. intros H.
  rewrite Z.mod_small; lia.
Qed.

(** The loop computes [res * base ^ exp] modulo [2 ^ 64] as soon as the
    number of rounds covers the bits of the exponent. *)
Lemma ipow_loop_spec (n : nat) :
  forall res base exp, 0 <= exp < 2 ^ Z.of_nat n ->
    wrap64 (ipow_loop n res base exp) = wrap64 (res * base ^ exp).
Proof.
  induction n as [|n IH]; intros res base exp Hexp.
  - cbn in Hexp. assert (exp = 0) as -> by lia.
    cbn [ipow_loop]. f_equal. rewrite Z.pow_0_r. lia.
  - cbn [ipow_loop]. destruct (0 <? exp) eqn:Hpos.
    + apply Z.ltb_lt in Hpos.
      rewrite Z.rem_mod_nonneg, Z.quot_div_nonneg by lia.
      assert (Hq : 0 <= exp / 2 < 2 ^ Z.of_nat n).
      { rewrite Nat2Z.inj_succ, Z.pow_succ_r in Hexp by lia.
        split; [apply Z.div_pos; lia | apply Z.div_lt_upper_bound; lia]. }
      rewrite IH by exact Hq.
      rewrite wrap64_mul_pow.
      assert (Hsplit : base ^ exp = (base * base) ^ (exp / 2) * base ^ (exp mod 2)).
      { rewrite (Z.div_mod exp 2) at 1 by lia.
        rewrite Z.pow_add_r, Z.pow_mul_r by
          (try apply Z.mod_pos_bound; try apply Z.mul_nonneg_nonneg;
           try apply Z.div_pos; lia).
        rewrite Z.pow_2_r. reflexivity. }
      rewrite Hsplit.
      pose proof (Z.mod_pos_bound exp 2 ltac:(lia)) as Hr.
      destruct (exp mod 2 =? 1) eqn:Hodd.
      * apply Z.eqb_eq in Hodd. rewrite Hodd, Z.pow_1_r.
        rewrite wrap64_mul_l. f_equal. ring.
      * apply Z.eqb_neq in Hodd. assert (exp mod 2 = 0) as -> by lia.
        rewrite Z.pow_0_r. f_equal. ring.
    + apply Z.ltb_ge in Hpos. assert (exp = 0) as -> by lia.
      rewrite Z.pow_0_r. f_equal. lia.
Qed.

Lemma ipow_loop_wrapped (n : nat) :
  forall res base exp, wrap64 res = res ->
    wrap64 (ipow_loop n res base exp) = ipow_loop n res base exp.
Proof.
  induction n as [|n IH]; intros res base exp Hres; cbn [ipow_loop].
  - exact Hres.
  - destruct (0 <? exp); [| exact Hres].
    apply IH. destruct (Z.rem exp 2 =? 1); [apply wrap64_idem | exact Hres].
Qed.

(** 31 rounds are enough for every non-negative [int]: more rounds change
    nothing. *)
Lemma ipow_loop_enough (k : nat) (base exp : Z) :
  0 <= exp <= INT_MAX ->
  ipow_loop (31 + k) 1 base exp = ipow_loop 31 1 base exp.
Proof.
  intros Hexp.
  rewrite <- (ipow_loop_wrapped (31 + k)), <- (ipow_loop_wrapped 31) by reflexivity.
  rewrite !ipow_loop_spec; [reflexivity | |].
  - unfold INT_MAX in Hexp. change (2 ^ Z.of_nat 31) with (2 ^ 31). lia.
  - unfold INT_MAX in Hexp.
    assert (2 ^ 31 <= 2 ^ Z.of_nat (31 + k)) by (apply Z.pow_le_mono_r; lia).
    lia.
Qed.

Lemma ipow_power (base exp : Z) :
  0 <= exp <= INT_MAX -> ipow base exp = wrap64 (base ^ exp).
Proof.
  intros Hexp. unfold ipow.
  rewrite <- ipow_loop_wrapped by reflexivity.
  rewrite ipow_loop_spec.
  - f_equal. lia.
  - unfold INT_MAX in Hexp. change (2 ^ Z.of_nat 31) with (2 ^ 31). lia.
Qed.

Lemma pow_iter_power (b : Z) (e : nat) :
  pow_iter b e = wrap64 (b ^ Z.of_nat e).
Proof.
  induction e as [|e IH].
  - reflexivity.
  - cbn [pow_iter]. rewrite IH, wrap64_mul_l.
    rewrite Nat2Z.inj_succ, Z.pow_succ_r by lia. f_equal. ring.
Qed.

(** ** Applying a native function to number literals *)

Lemma eval_number (n : nat) (e : lenv) (v : lval) :
  is_number v = true -> lval_eval (S n) e v = Ret (e, v).
Proof. destruct v; cbn; intros H; solve [reflexivity | discriminate H]. Qed.

Lemma eval_cells_numbers (n : nat) (e : lenv) (c : list lval) :
  forallb is_number c = true -> eval_cells (lval_eval (S n)) e c = Ret (e, c).
Proof.
  induction c as [|x c IH]; intros H.
  - reflexivity.
  - cbn [forallb] in H. apply andb_prop in H. destruct H as [Hx Hc].
    cbn [eval_cells]. rewrite eval_number by exact Hx.
    cbn [bind]. rewrite IH by exact Hc. reflexivity.
Qed.

Lemma find_err_numbers (c : list lval) :
  forallb is_number c = true -> find is_err c = None.
Proof.
  induction c as [|x c IH]; intros H; [reflexivity |].
  cbn [forallb] in H. apply andb_prop in H. destruct H as [Hx Hc].
  cbn [find]. destruct x; try discriminate Hx; cbn [is_err]; auto.
Qed.

(** An S-expression made of a symbol bound to a native function and of one
    or more number literals evaluates to the call of that function on the
    literals. *)
Lemma eval_native_call (n : nat) (e : lenv) (name : string) (b : lbuiltin)
      (x : lval) (args : list lval) :
  lenv_get e name = Fun b ->
  forallb is_number (x :: args) = true ->
  lval_eval (2 + n) e (Sexpr (Sym name :: x :: args))
  = call_builtin (lval_eval (S n)) b e (x :: args).
Proof.
  intros Hget Hnum.
  change (lval_eval (2 + n) e (Sexpr (Sym name :: x :: args)))
    with (lval_eval_sexpr (lval_eval (S n)) e (Sym name :: x :: args)).
  unfold lval_eval_sexpr.
  change (eval_cells (lval_eval (S n)) e (Sym name :: x :: args))
    with ('(e1, r) <- eval_cells (lval_eval (S n)) e (x :: args) ;;
          Ret (e1, lenv_get e name :: r)).
  rewrite eval_cells_numbers by exact Hnum.
  rewrite Hget. cbn [bind].
  change (find is_err (Fun b :: x :: args)) with (find is_err (x :: args)).
  rewrite find_err_numbers by exact Hnum.
  replace (count (Fun b :: x :: args) =? 0) with false
    by (symmetry; apply Z.eqb_neq; rewrite !count_cons;
        pose proof (count_nonneg args); lia).
  replace (count (Fun b :: x :: args) =? 1) with false
    by (symmetry; apply Z.eqb_neq; rewrite !count_cons;
        pose proof (count_nonneg args); lia).
  reflexivity.
Qed.

Lemma global_div : lenv_get global_env "/" = Fun builtin_div_p.
Proof. reflexivity. Qed.

Lemma global_mod : lenv_get global_env "%" = Fun builtin_mod_p.
Proof. reflexivity. Qed.

Lemma global_pow : lenv_get global_env "^" = Fun builtin_pow_p.
Proof. reflexivity. Qed.

Lemma global_add : lenv_get global_env "+" = Fun builtin_add_p.
Proof. reflexivity. Qed.

Lemma builtin_op_two_longs (op : string) (a b : Z) :
  builtin_op [Num a; Num b] op
  = match long_op op a b with
    | Next x | Break x => Ret x
    | Trap => Fault
    end.
Proof.
  unfold builtin_op. cbn [forallb is_number andb].
  change (lval_pop [Num a; Num b] 0) with (Ret (Num a, [Num b])).
  cbn [bind]. change (count [Num b] =? 0) with false.
  rewrite andb_false_r. cbn [op_loop op_round].
  destruct (long_op op a b); reflexivity.
Qed.

Ltac string_tests := cbn [String.eqb Ascii.eqb Bool.eqb].

(** ** Arithmetic builtins *)

(** C1 at [(+ 1 2.0)]: the sum is written to [x->dnum] of the Integer [1]
    whose tag stays [LVAL_NUM]; the result is the Integer whose bits are
    those of the double 3.0, not the Float 3.000000. *)
Theorem add_int_float_keeps_integer_tag (n : nat) :
  lval_eval (2 + n) global_env (Sexpr [Sym "+"; Num 1; Flt two])
  = Ret (global_env, Num 4613937818241073152).
Proof.
  rewrite (eval_native_call n global_env "+" builtin_add_p) by reflexivity.
  reflexivity.
Qed.

(** For every operator, an Integer first operand and a Float second one
    give a value tagged Integer. *)
Lemma int_float_round_is_integer (op : string) (a : Z) (d : double) :
  exists k, builtin_op [Num a; Flt d] op = Ret (Num k).
Proof.
  unfold builtin_op. cbn [forallb is_number andb].
  change (lval_pop [Num a; Flt d] 0) with (Ret (Num a, [Flt d])).
  cbn [bind]. change (count [Flt d] =? 0) with false.
  rewrite andb_false_r. cbn [op_loop op_round].
  destruct (float_op op (double_of_long a) d); cbn [set_dnum]; eauto.
Qed.

(** With the Float first, or with two Integers, the tag is the expected
    one: [(+ 2.0 1)] is the Float 3.0 and [(+ 1 2)] the Integer 3. *)
Lemma add_float_int_and_int_int (n : nat) :
  lval_eval (2 + n) global_env (Sexpr [Sym "+"; Flt two; Num 1])
  = Ret (global_env, Flt (double_lit 3 0))
  /\ lval_eval (2 + n) global_env (Sexpr [Sym "+"; Num 1; Num 2])
     = Ret (global_env, Num 3).
Proof.
  split.
  - rewrite (eval_native_call n global_env "+" builtin_add_p) by reflexivity.
    reflexivity.
  - rewrite (eval_native_call n global_env "+" builtin_add_p) by reflexivity.
    reflexivity.
Qed.

(** C4 at [(% a 0)] and at [init]: the Integer remainder is taken without
    a test of the divisor, so [(% a 0)] traps for every Integer [a]; and
    [init] pops its operand at the index [a->count-1] of the argument list,
    which is -1 for every non-empty QExpr. *)
Theorem mod_zero_and_init_fault (n : nat) (a : Z) (x : lval) (q : list lval) :
  lval_eval (2 + n) global_env (Sexpr [Sym "%"; Num a; Num 0]) = Fault
  /\ builtin_init [Qexpr (x :: q)] = Fault.
Proof.
  split.
  - rewrite (eval_native_call n global_env "%" builtin_mod_p) by reflexivity.
    cbn [call_builtin]. rewrite builtin_op_two_longs.
    unfold long_op. string_tests. reflexivity.
  - unfold builtin_init.
    replace (count [Qexpr (x :: q)] =? 1) with true by reflexivity.
    cbn [negb cell_at nth_error bind is_qexpr cells].
    replace (count (x :: q) =? 0) with false.
    + reflexivity.
    + symmetry. apply Z.eqb_neq. rewrite count_cons.
      pose proof (count_nonneg q). lia.
Qed.

(** The same through the evaluator: [(init {1 2})]. *)
Lemma init_example_faults (n : nat) :
  lval_eval (2 + n) global_env (Sexpr [Sym "init"; Qexpr [Num 1; Num 2]]) = Fault.
Proof. reflexivity. Qed.

(** At any round of the reduction, an Integer accumulator met by the
    Integer 0 ends the loop with the Error; the operands left are not
    looked at. *)
Lemma op_loop_division_by_zero (a : Z) (rest : list lval) :
  op_loop "/" (Num a) (Num 0 :: rest) = Ret (Err "Division By Zero!").
Proof.
  cbn [op_loop op_round]. unfold long_op. string_tests. reflexivity.
Qed.

Lemma division_by_zero_breaks (a : Z) (rest : list lval) :
  forallb is_number rest = true ->
  builtin_op (Num a :: Num 0 :: rest) "/" = Ret (Err "Division By Zero!").
Proof.
  intros Hrest. unfold builtin_op.
  cbn [forallb is_number andb]. rewrite Hrest.
  change (lval_pop (Num a :: Num 0 :: rest) 0) with (Ret (Num a, Num 0 :: rest)).
  cbn [bind]. string_tests. cbn [andb].
  apply op_loop_division_by_zero.
Qed.

(** C5 as the code has it: for Integers [a] and [b] with [b] not 0, and
    not the pair [LONG_MIN], [-1] whose quotient overflows, [(/ a b)] is the
    Integer quotient truncated toward zero; with an Integer divisor 0 the
    result is the Error "Division By Zero!", whatever numbers follow, which
    are dropped. *)
Theorem div_truncates_or_reports_zero (n : nat) (a b : Z) (rest : list lval) :
  b <> 0 -> ~ (a = LONG_MIN /\ b = -1) ->
  forallb is_number rest = true ->
  lval_eval (2 + n) global_env (Sexpr [Sym "/"; Num a; Num b])
  = Ret (global_env, Num (Z.quot a b))
  /\ lval_eval (2 + n) global_env (Sexpr (Sym "/" :: Num a :: Num 0 :: rest))
     = Ret (global_env, Err "Division By Zero!").
Proof.
  intros Hb Hov Hrest. split.
  - rewrite (eval_native_call n global_env "/" builtin_div_p) by reflexivity.
    cbn [call_builtin]. rewrite builtin_op_two_longs.
    unfold long_op. string_tests.
    destruct (b =? 0) eqn:Hb0; [apply Z.eqb_eq in Hb0; contradiction |].
    unfold ldiv. rewrite Hb0.
    destruct ((a =? LONG_MIN) && (b =? -1)) eqn:Hmin.
    + apply andb_prop in Hmin. destruct Hmin as [H1 H2].
      apply Z.eqb_eq in H1, H2. exfalso. auto.
    + reflexivity.
  - rewrite (eval_native_call n global_env "/" builtin_div_p);
      [| reflexivity | cbn [forallb is_number andb]; exact Hrest].
    cbn [call_builtin].
    rewrite division_by_zero_breaks by exact Hrest.
    reflexivity.
Qed.

(** C9: for every Integer base [b] and every non-negative exponent [e] of
    the [int] range, in particular every [e <= 32], the squaring loop of
    [ipow] gives what multiplying [b] with itself [e] times gives, and so
    does [(^ b e)]; [(^ 2 10)] is the Integer 1024. *)
Theorem ipow_matches_iteration (n : nat) (b e : Z) :
  0 <= e <= INT_MAX ->
  ipow b e = pow_iter b (Z.to_nat e)
  /\ lval_eval (2 + n) global_env (Sexpr [Sym "^"; Num b; Num e])
     = Ret (global_env, Num (pow_iter b (Z.to_nat e)))
  /\ lval_eval (2 + n) global_env (Sexpr [Sym "^"; Num 2; Num 10])
     = Ret (global_env, Num 1024).
Proof.
  intros He.
  assert (Hpow : ipow b e = pow_iter b (Z.to_nat e)).
  { rewrite ipow_power by exact He.
    rewrite pow_iter_power, Z2Nat.id by lia. reflexivity. }
  split; [exact Hpow | split].
  - rewrite (eval_native_call n global_env "^" builtin_pow_p) by reflexivity.
    cbn [call_builtin]. rewrite builtin_op_two_longs.
    unfold long_op. string_tests.
    replace (wrap32 e) with e.
    + rewrite Hpow. reflexivity.
    + unfold wrap32. unfold INT_MAX in He. rewrite Z.mod_small; lia.
  - rewrite (eval_native_call n global_env "^" builtin_pow_p) by reflexivity.
    reflexivity.
Qed.

(** ** Copies *)

Lemma map_copy_id (c : list lval) :
  Forall (fun v => float_free v = true -> lval_copy v = v) c ->
  forallb float_free c = true -> map lval_copy c = c.
Proof.
  induction 1 as [|x c Hx _ IH]; intros Hff; [reflexivity |].
  cbn [forallb] in Hff. apply andb_prop in Hff. destruct Hff as [H1 H2].
  cbn [map]. rewrite Hx, IH by assumption. reflexivity.
Qed.

Lemma map_copy_binds_id (b : list (string * lval)) :
  Forall (fun sv => float_free (snd sv) = true -> lval_copy (snd sv) = snd sv) b ->
  forallb (fun sv => float_free (snd sv)) b = true ->
  map (fun sv => (fst sv, lval_copy (snd sv))) b = b.
Proof.
  induction 1 as [|[k x] b Hx _ IH]; intros Hff; [reflexivity |].
  cbn [forallb] in Hff. apply andb_prop in Hff. destruct Hff as [H1 H2].
  cbn [map fst snd] in *. rewrite Hx, IH by assumption. reflexivity.
Qed.

(** A value that holds no double is copied into an equal value: lists and
    closures deeply, native functions and scalars as they are. *)
Lemma lval_copy_float_free (v : lval) :
  float_free v = true -> lval_copy v = v.
Proof.
  apply (lval_induction
           (fun v => float_free v = true -> lval_copy v = v)
           (fun e => lenv_float_free e = true -> lenv_copy e = e));
    try reflexivity.
  - discriminate.
  - intros c Hc Hff. cbn [lval_copy]. f_equal. apply map_copy_id; assumption.
  - intros c Hc Hff. cbn [lval_copy]. f_equal. apply map_copy_id; assumption.
  - intros env f b He Hf Hb Hff. cbn [float_free] in Hff.
    apply andb_prop in Hff. destruct Hff as [Hff H3].
    apply andb_prop in Hff. destruct Hff as [H1 H2].
    cbn [lval_copy]. rewrite He, Hf, Hb by assumption. reflexivity.
  - intros p b Hb Hff. cbn [lenv_copy]. f_equal.
    apply map_copy_binds_id; assumption.
Qed.

(** C2 at a Float: [lval_copy] has no case for [LVAL_FLOAT]; the copy has
    the Float tag and a [dnum] that was never written, whatever double the
    original holds. *)
Theorem lval_copy_float_unwritten (d : double) :
  lval_copy (Flt d) = Flt indet
  /\ lenv_get (lenv_put lenv_new "x" (Flt d)) "x" = Flt indet.
Proof. split; reflexivity. Qed.

(** ** Evaluation of S-expressions *)

Lemma find_first_err (c : list lval) :
  existsb is_err c = true ->
  exists l1 msg l2,
    c = (l1 ++ Err msg :: l2)%list
    /\ forallb (fun v => negb (is_err v)) l1 = true
    /\ find is_err c = Some (Err msg).
Proof.
  induction c as [|x c IH]; intros H; [discriminate H |].
  cbn [existsb] in H. destruct (is_err x) eqn:Hx.
  - destruct x; try discriminate Hx.
    exists [], err, c. repeat split. 
  - cbn [orb] in H. destruct (IH H) as (l1 & msg & l2 & Hc & Hl1 & Hfind).
    exists (x :: l1), msg, l2. subst c. repeat split.
    + cbn [forallb]. rewrite Hx, Hl1. reflexivity.
    + cbn [find]. rewrite Hx. exact Hfind.
Qed.

(** C8: when the children of an S-expression, evaluated from left to
    right, include an Error, the evaluation of the S-expression returns the
    leftmost Error among them and nothing of the other children. *)
Theorem sexpr_first_error_wins (n : nat) (e e' : lenv) (c c' : list lval) :
  eval_cells (lval_eval n) e c = Ret (e', c') ->
  existsb is_err c' = true ->
  exists l1 msg l2,
    c' = (l1 ++ Err msg :: l2)%list
    /\ forallb (fun v => negb (is_err v)) l1 = true
    /\ lval_eval (S n) e (Sexpr c) = Ret (e', Err msg).
Proof.
  intros Hcells Herr.
  destruct (find_first_err c' Herr) as (l1 & msg & l2 & Hc & Hl1 & Hfind).
  exists l1, msg, l2. repeat split; try assumption.
  cbn [lval_eval eval_dispatch]. unfold lval_eval_sexpr.
  rewrite Hcells. cbn [bind]. rewrite Hfind. reflexivity.
Qed.

(** ** Function application *)

(** The binding loop consumes one argument for each formal that is not the
    marker. *)
Lemma bind_loop_prefix (names : list string) :
  forall (args : list lval) (fenv : lenv) (tail more : list lval) (given total : Z),
    List.length names = List.length args ->
    no_marker names = true ->
    bind_loop (fenv) (map Sym names ++ tail)%list (args ++ more)%list given total
    = bind_loop (put_all fenv names args) tail more given total.
Proof.
  induction names as [|s names IH]; intros args fenv tail more given total Hlen Hno.
  - destruct args; [reflexivity | discriminate Hlen].
  - destruct args as [|v args]; [discriminate Hlen |].
    cbn [no_marker forallb] in Hno. apply andb_prop in Hno.
    destruct Hno as [Hs Hno]. apply negb_true_iff in Hs.
    cbn [map app bind_loop sym_name bind]. rewrite Hs.
    rewrite IH by (try exact Hno; cbn in Hlen; lia).
    reflexivity.
Qed.

Lemma find_put_binds (b : list (string * lval)) (k : string) (x : lval) :
  find (fun sv => (fst sv =? k)%string) (put_binds b k x) = Some (k, x).
Proof.
  induction b as [|[s old] b IH]; cbn [put_binds].
  - cbn [find fst]. rewrite String.eqb_refl. reflexivity.
  - destruct (s =? k)%string eqn:Hs.
    + cbn [find fst]. rewrite Hs. apply String.eqb_eq in Hs. subst s. reflexivity.
    + cbn [find fst]. rewrite Hs. exact IH.
Qed.

(** A name that was put is found in the scope it was put in, as a copy of
    the stored copy. *)
Lemma lenv_get_put (e : lenv) (p : option lenv) (k : string) (v : lval) :
  lenv_get (Lenv p (binds (lenv_put e k v))) k = lval_copy (lval_copy v).
Proof.
  unfold lenv_put. cbn [binds lenv_get].
  rewrite find_put_binds. reflexivity.
Qed.

(** C6 as the code has it: a closure called with fewer arguments than
    formals, where neither the formals that receive the arguments nor the
    first formal left is the marker [&], is not evaluated; the call returns
    a Function, the copy of the closure with the arguments bound in its
    environment and the formals left over.  [((\ {x y} {+ x y}) 1)] is such
    a Function, and applied to 2 it gives the Integer 3. *)
Theorem partial_application
        (ev : lenv -> lval -> outcome (lenv * lval)) (n : nat)
        (e fenv : lenv) (names : list string) (k : string)
        (rest : list lval) (body : lval) (args : list lval) :
  List.length names = List.length args ->
  no_marker names = true ->
  (k =? "&")%string = false ->
  lval_call ev e (Lambda fenv (Qexpr (map Sym names ++ Sym k :: rest)%list) body) args
  = Ret (e, lval_copy (Lambda (put_all fenv names args) (Qexpr (Sym k :: rest)) body))
  /\ lval_eval (4 + n) global_env (Sexpr [add_xy; Num 1])
     = Ret (global_env,
            Lambda (Lenv None [("x", Num 1)]) (Qexpr [Sym "y"])
                   (Qexpr [Sym "+"; Sym "x"; Sym "y"]))
  /\ lval_eval (5 + n) global_env (Sexpr [Sexpr [add_xy; Num 1]; Num 2])
     = Ret (global_env, Num 3).
Proof.
  intros Hlen Hno Hk. split; [| split; reflexivity].
  unfold lval_call. cbn [cells].
  pose proof (fun g t =>
    bind_loop_prefix names args fenv (Sym k :: rest) [] g t Hlen Hno) as Hloop.
  rewrite app_nil_r in Hloop. rewrite Hloop.
  cbn [bind_loop bind sym_name]. rewrite Hk. cbn [bind].
  replace (count (Sym k :: rest) =? 0) with false
    by (symmetry; apply Z.eqb_neq; rewrite count_cons;
        pose proof (count_nonneg rest); lia).
  reflexivity.
Qed.

(** When the marker [&] is reached and exactly one formal [k] follows it,
    the body is evaluated in an environment where [k] is the QExpr of all
    the arguments that remain, the empty QExpr when none remains; arguments
    that hold no double are found there unchanged.
    [((\ {x & xs} {xs}) 1 2 3)] is the QExpr {2 3}. *)
Lemma variadic_binding
        (ev : lenv -> lval -> outcome (lenv * lval)) (n : nat)
        (e fenv : lenv) (names : list string) (k : string)
        (body : lval) (args more : list lval) :
  List.length names = List.length args ->
  no_marker names = true ->
  forallb float_free more = true ->
  (exists fenv' : lenv,
      par fenv' = Some e
      /\ lenv_get fenv' k = Qexpr more
      /\ lval_call ev e
           (Lambda fenv (Qexpr (map Sym names ++ [Sym "&"; Sym k])%list) body)
           (args ++ more)%list
         = ('(fe, v) <- builtin_eval ev fenv' [lval_copy body] ;;
            Ret (caller_env fe e, v)))
  /\ lval_eval (3 + n) global_env (Sexpr [rest_xs; Num 1; Num 2; Num 3])
     = Ret (global_env, Qexpr [Num 2; Num 3]).
Proof.
  intros Hlen Hno Hff. split; [| reflexivity].
  exists (Lenv (Some e) (binds (lenv_put (put_all fenv names args) k (Qexpr more)))).
  split; [reflexivity | split].
  - rewrite lenv_get_put.
    rewrite !lval_copy_float_free; cbn [float_free]; auto.
    rewrite lval_copy_float_free; cbn [float_free]; auto.
  - unfold lval_call. cbn [cells].
    rewrite bind_loop_prefix by assumption.
    destruct more as [|v more].
    + cbn [bind_loop bind sym_name]. string_tests.
      replace (count [Sym "&"; Sym k] =? 2) with true by reflexivity.
      cbn [negb]. 
      change (lval_pop [Sym "&"; Sym k] 0) with (Ret (Sym "&", [Sym k])).
      cbn [bind].
      change (lval_pop [Sym k] 0) with (Ret (Sym k, @nil lval)).
      cbn [bind sym_name]. reflexivity.
    + cbn [bind_loop bind sym_name]. string_tests.
      replace (count [Sym k] =? 1) with true by reflexivity.
      cbn [negb].
      change (lval_pop [Sym k] 0) with (Ret (Sym k, @nil lval)).
      cbn [bind sym_name]. reflexivity.
Qed.

(** ** Environments *)

Lemma find_put_binds_other (b : list (string * lval)) (k k' : string) (x : lval) :
  (k' =? k)%string = false ->
  find (fun sv => (fst sv =? k')%string) (put_binds b k x)
  = find (fun sv => (fst sv =? k')%string) b.
Proof.
  intros Hk. assert (Hk' : (k =? k')%string = false) by (rewrite String.eqb_sym; exact Hk).
  induction b as [|[s old] b IH]; cbn [put_binds].
  - cbn [find fst]. rewrite Hk'. reflexivity.
  - destruct (s =? k)%string eqn:Hs.
    + apply String.eqb_eq in Hs. subst s. cbn [find fst]. rewrite Hk'. reflexivity.
    + cbn [find fst]. destruct (s =? k')%string; [reflexivity | exact IH].
Qed.

Lemma find_absent (b : list (string * lval)) (k : string) :
  existsb (fun sv => (fst sv =? k)%string) b = false ->
  find (fun sv => (fst sv =? k)%string) b = None.
Proof.
  induction b as [|sv b IH]; intros H; [reflexivity |].
  cbn [existsb] in H. apply orb_false_iff in H. destruct H as [H1 H2].
  cbn [find]. rewrite H1. exact (IH H2).
Qed.

Lemma lenv_get_put_copy (e : lenv) (k : string) (v : lval) :
  lenv_get (lenv_put e k v) k = lval_copy (lval_copy v).
Proof. exact (lenv_get_put e (par e) k v). Qed.

Lemma copy_twice_float_free (v : lval) :
  float_free v = true -> lval_copy (lval_copy v) = v.
Proof.
  intros H. rewrite (lval_copy_float_free v H). exact (lval_copy_float_free v H).
Qed.

Lemma lenv_get_put_distinct (e : lenv) (k k' : string) (v : lval) :
  (k' =? k)%string = false ->
  float_free (lenv_get e k') = true ->
  lenv_get (lenv_put e k v) k' = lenv_get e k'.
Proof.
  intros Hk _. destruct e as [p b]. unfold lenv_put. cbn [par binds lenv_get].
  rewrite find_put_binds_other by exact Hk. reflexivity.
Qed.

(** X1: A value without a double that is put under a name is what a
    lookup of that name in the same scope returns, whatever the scope held
    before; and the lookup of another name, bound to a value without a
    double or unbound, is what it was. *)
Theorem lenv_put_then_get (e : lenv) (k k' : string) (v : lval) :
  float_free v = true -> (k' =? k)%string = false ->
  float_free (lenv_get e k') = true ->
  lenv_get (lenv_put e k v) k = v
  /\ lenv_get (lenv_put e k v) k' = lenv_get e k'.
Proof.
  intros H Hk Hff. split.
  - rewrite lenv_get_put_copy. apply copy_twice_float_free, H.
  - apply lenv_get_put_distinct; assumption.
Qed.

Lemma put_binds_names (b : list (string * lval)) (k : string) (x : lval) :
  map fst (put_binds b k x)
  = if existsb (fun sv => (fst sv =? k)%string) b then map fst b
    else (map fst b ++ [k])%list.
Proof.
  induction b as [|[s old] b IH]; [reflexivity |].
  cbn [put_binds existsb fst]. destruct (s =? k)%string eqn:Hs.
  - reflexivity.
  - cbn [orb map fst]. rewrite IH.
    destruct (existsb (fun sv => (fst sv =? k)%string) b); reflexivity.
Qed.

Lemma absent_not_in (b : list (string * lval)) (k : string) :
  existsb (fun sv => (fst sv =? k)%string) b = false -> ~ In k (map fst b).
Proof.
  induction b as [|[s old] b IH]; intros H Hin; [exact Hin |].
  cbn [existsb fst] in H. apply orb_false_iff in H. destruct H as [H1 H2].
  cbn [map fst In] in Hin. destruct Hin as [Heq | Hin].
  - subst s. rewrite String.eqb_refl in H1. discriminate H1.
  - exact (IH H2 Hin).
Qed.

(** X2: [lenv_put] replaces in place or appends: a name already in the scope
    keeps its position and the scope its size, a new name goes to the end;
    a scope without a repeated name stays so. *)
Theorem lenv_put_names (e : lenv) (k : string) (v : lval) :
  NoDup (names_of e) ->
  names_of (lenv_put e k v)
  = (if bound_here k e then names_of e else (names_of e ++ [k])%list)
  /\ NoDup (names_of (lenv_put e k v)).
Proof.
  intros Hnd. unfold names_of, bound_here, lenv_put in *. cbn [binds].
  rewrite put_binds_names. split; [reflexivity |].
  destruct (existsb (fun sv => (fst sv =? k)%string) (binds e)) eqn:Hb.
  - exact Hnd.
  - apply NoDup_rev in Hnd. rewrite <- (rev_involutive (map fst (binds e) ++ [k])%list).
    apply NoDup_rev. rewrite rev_app_distr. cbn [rev app].
    constructor; [| exact Hnd].
    intros Hin. apply in_rev in Hin. exact (absent_not_in _ _ Hb Hin).
Qed.

(** X3: A name that no scope of the chain binds is looked up as the Error
    "Unbound Symbol '<name>'". *)
Theorem lenv_get_unbound (e : lenv) (k : string) :
  bound k e = false ->
  lenv_get e k = lval_err ("Unbound Symbol '" ++ k ++ "'").
Proof.
  revert e. apply (lenv_chain_induction
    (fun e => bound k e = false ->
              lenv_get e k = lval_err ("Unbound Symbol '" ++ k ++ "'"))).
  - intros b H. cbn [bound] in H. cbn [lenv_get]. rewrite find_absent by exact H.
    reflexivity.
  - intros p b IH H. cbn [bound] in H. apply orb_false_iff in H. destruct H as [H1 H2].
    cbn [lenv_get]. rewrite find_absent by exact H1. exact (IH H2).
Qed.

Lemma lenv_get_def_unshadowed (k : string) (v : lval) (e : lenv) :
  shadowed k e = false ->
  lenv_get (lenv_def e k v) k = lval_copy (lval_copy v).
Proof.
  revert e. apply (lenv_chain_induction
    (fun e => shadowed k e = false ->
              lenv_get (lenv_def e k v) k = lval_copy (lval_copy v))).
  - intros b _. cbn [lenv_def]. apply lenv_get_put_copy.
  - intros p b IH H. cbn [shadowed] in H. apply orb_false_iff in H.
    destruct H as [H1 H2]. cbn [lenv_def lenv_get].
    rewrite find_absent by exact H1. exact (IH H2).
Qed.



Lemma lval_copy_keeps_kind (v : lval) :
  type_of (lval_copy v) = type_of v
  /\ count (cells (lval_copy v)) = count (cells v).
Proof.
  split.
  - destruct v; reflexivity.
  - destruct v; try reflexivity; cbn [lval_copy cells]; unfold count;
      rewrite length_map; reflexivity.
Qed.

(** X5: A value that holds no double, however deep its lists and whatever
    environments its closures carry, is copied into an equal value, so
    that copying the copy changes nothing more; kind and number of cells
    are those of the original. *)
Theorem lval_copy_idempotent (v : lval) :
  float_free v = true ->
  lval_copy v = v
  /\ lval_copy (lval_copy v) = lval_copy v
  /\ type_of (lval_copy v) = type_of v
  /\ count (cells (lval_copy v)) = count (cells v).
Proof.
  intros Hff. pose proof (lval_copy_float_free v Hff) as Hcopy.
  split; [exact Hcopy | split].
  - rewrite Hcopy. exact Hcopy.
  - apply lval_copy_keeps_kind.
Qed.

Lemma find_copied_binds (k : string) (b : list (string * lval)) :
  find (fun sv => (fst sv =? k)%string)
       (map (fun sv => (fst sv, lval_copy (snd sv))) b)
  = option_map (fun sv => (fst sv, lval_copy (snd sv)))
               (find (fun sv => (fst sv =? k)%string) b).
Proof.
  induction b as [|[s x] b IH]; [reflexivity |].
  cbn [map find fst snd]. destruct (s =? k)%string; [reflexivity | exact IH].
Qed.

(** X6: A copied environment has the parent and the names of the original,
    and a name whose lookup in the original holds no double is looked up
    in the copy as the same value. *)
Theorem lenv_copy_same_lookups (e : lenv) (k : string) :
  float_free (lenv_get e k) = true ->
  par (lenv_copy e) = par e
  /\ names_of (lenv_copy e) = names_of e
  /\ lenv_get (lenv_copy e) k = lenv_get e k.
Proof.
  destruct e as [p b]. cbn [lenv_copy par]. intros Hff.
  split; [reflexivity | split].
  - unfold names_of. cbn [binds]. rewrite map_map. reflexivity.
  - cbn [lenv_get] in *. rewrite find_copied_binds.
    destruct (find (fun sv => (fst sv =? k)%string) b) as [[s x]|];
      cbn [option_map snd] in *; [| reflexivity].
    apply lval_copy_float_free, Hff.
Qed.

(** ** Cell arrays *)

Lemma pop_nat_in_range (c : list lval) :
  forall i, (i < List.length c)%nat ->
    exists x, nth_error c i = Some x
              /\ pop_nat c i = Some (x, (firstn i c ++ skipn (S i) c)%list).
Proof.
  induction c as [|y c IH]; intros i Hi; [cbn in Hi; lia |].
  destruct i as [|i].
  - exists y. split; reflexivity.
  - cbn [List.length] in Hi. destruct (IH i ltac:(lia)) as (x & Hn & Hp).
    exists x. split; [exact Hn |]. cbn [pop_nat]. rewrite Hp. reflexivity.
Qed.

Lemma pop_nat_out_of_range (c : list lval) :
  forall i, (List.length c <= i)%nat -> pop_nat c i = None.
Proof.
  induction c as [|y c IH]; intros i Hi; [reflexivity |].
  destruct i as [|i]; [cbn in Hi; lia |].
  cbn [pop_nat]. rewrite IH by (cbn in Hi; lia). reflexivity.
Qed.

(** X7: A pop at an index inside the array returns the cell at that index and
    the array without it, the other cells in their order and the count one
    less. *)
Theorem lval_pop_in_range (c : list lval) (i : Z) :
  0 <= i < count c ->
  exists x,
    nth_error c (Z.to_nat i) = Some x
    /\ lval_pop c i
       = Ret (x, (firstn (Z.to_nat i) c ++ skipn (S (Z.to_nat i)) c)%list)
    /\ count (firstn (Z.to_nat i) c ++ skipn (S (Z.to_nat i)) c)%list = count c - 1.
Proof.
  intros Hi. unfold count in *.
  destruct (pop_nat_in_range c (Z.to_nat i) ltac:(lia)) as (x & Hn & Hp).
  exists x. split; [exact Hn | split].
  - unfold lval_pop. replace (i <? 0) with false by (symmetry; apply Z.ltb_ge; lia).
    rewrite Hp. reflexivity.
  - rewrite length_app, length_firstn, length_skipn. lia.
Qed.

(** A pop at an index outside the array, negative or not below the count,
    is an invalid access. *)
Lemma lval_pop_out_of_range (c : list lval) (i : Z) :
  i < 0 \/ count c <= i -> lval_pop c i = Fault.
Proof.
  intros Hi. unfold lval_pop, count in *.
  destruct (i <? 0) eqn:Hneg; [reflexivity |].
  apply Z.ltb_ge in Hneg.
  rewrite pop_nat_out_of_range by lia. reflexivity.
Qed.

Lemma pop_nat_last (c : list lval) (x : lval) :
  pop_nat (c ++ [x])%list (List.length c) = Some (x, c).
Proof.
  induction c as [|y c IH]; [reflexivity |].
  cbn [app List.length pop_nat]. rewrite IH. reflexivity.
Qed.

(** The cell added last is the one a pop at the old count returns, and the
    array is then what it was before the addition. *)
Lemma lval_pop_after_add (c : list lval) (x : lval) :
  lval_pop (lval_add c x) (count c) = Ret (x, c).
Proof.
  unfold lval_pop, lval_add, count.
  replace (Z.of_nat (List.length c) <? 0) with false
    by (symmetry; apply Z.ltb_ge; lia).
  rewrite Nat2Z.id, pop_nat_last. reflexivity.
Qed.

(** ** List builtins *)

Lemma count_two_more (x y : lval) (c : list lval) (k : Z) :
  k <= 1 -> (count (x :: y :: c) =? k) = false.
Proof.
  intros Hk. apply Z.eqb_neq. rewrite !count_cons.
  pose proof (count_nonneg c). lia.
Qed.

Lemma count_nonempty (x : lval) (c : list lval) : (count (x :: c) =? 0) = false.
Proof.
  apply Z.eqb_neq. rewrite count_cons. pose proof (count_nonneg c). lia.
Qed.

Lemma tail_of_nonempty (x : lval) (q : list lval) :
  builtin_tail [Qexpr (x :: q)] = Ret (Qexpr q).
Proof.
  unfold builtin_tail.
  replace (count [Qexpr (x :: q)] =? 1) with true by reflexivity.
  cbn [negb cell_at nth_error bind is_qexpr cells].
  rewrite count_nonempty. reflexivity.
Qed.

Lemma head_of_nonempty (x : lval) (q : list lval) :
  builtin_head [Qexpr (x :: q)] = Ret (Qexpr [x]).
Proof.
  unfold builtin_head.
  replace (count [Qexpr (x :: q)] =? 1) with true by reflexivity.
  cbn [negb cell_at nth_error bind is_qexpr cells].
  rewrite count_nonempty.
  change (lval_take [Qexpr (x :: q)] 0) with (Ret (Qexpr (x :: q))).
  cbn [bind cells]. rewrite head_loop_first by (cbn; lia). reflexivity.
Qed.

Lemma len_of_nonempty (x : lval) (q : list lval) :
  builtin_len [Qexpr (x :: q)] = Ret (Num (count (x :: q))).
Proof.
  unfold builtin_len.
  replace (count [Qexpr (x :: q)] =? 1) with true by reflexivity.
  cbn [negb cell_at nth_error bind is_qexpr cells].
  rewrite count_nonempty. reflexivity.
Qed.

Lemma cons_of_qexpr (x : lval) (q : list lval) :
  builtin_cons [x; Qexpr q] = Ret (Qexpr (x :: q)).
Proof. reflexivity. Qed.

Lemma fold_lval_add (l acc : list lval) :
  fold_left lval_add l acc = (acc ++ l)%list.
Proof.
  revert acc. induction l as [|x l IH]; intros acc; cbn [fold_left].
  - rewrite app_nil_r. reflexivity.
  - rewrite IH. unfold lval_add. rewrite <- app_assoc. reflexivity.
Qed.

Lemma fold_lval_join (qs : list (list lval)) :
  forall q, fold_left lval_join (map Qexpr qs) (Qexpr q)
            = Qexpr (q ++ List.concat qs)%list.
Proof.
  induction qs as [|q1 qs IH]; intros q; cbn [map fold_left List.concat].
  - rewrite app_nil_r. reflexivity.
  - unfold lval_join at 2. cbn [cells with_cells]. rewrite fold_lval_add, IH.
    rewrite app_assoc. reflexivity.
Qed.

Lemma all_qexpr (qs : list (list lval)) : forallb is_qexpr (map Qexpr qs) = true.
Proof. induction qs as [|q qs IH]; [reflexivity | exact IH]. Qed.

Lemma join_of_qexprs (q : list lval) (qs : list (list lval)) :
  builtin_join (Qexpr q :: map Qexpr qs) = Ret (Qexpr (q ++ List.concat qs)%list).
Proof.
  unfold builtin_join. cbn [forallb is_qexpr andb]. rewrite all_qexpr.
  change (lval_pop (Qexpr q :: map Qexpr qs) 0) with (Ret (Qexpr q, map Qexpr qs)).
  cbn [bind]. rewrite fold_lval_join. reflexivity.
Qed.

(** X9: [join] of one or more QExprs is the QExpr of all their cells, in the
    order of the arguments. *)
Theorem builtin_join_concatenates (q : list lval) (qs : list (list lval)) :
  builtin_join (Qexpr q :: map Qexpr qs) = Ret (Qexpr (q ++ List.concat qs)%list).
Proof.
  unfold builtin_join. cbn [forallb is_qexpr andb]. rewrite all_qexpr.
  change (lval_pop (Qexpr q :: map Qexpr qs) 0) with (Ret (Qexpr q, map Qexpr qs)).
  cbn [bind]. rewrite fold_lval_join. reflexivity.
Qed.

(** [tail] undoes [cons]: the tail of a value prepended to a QExpr is that
    QExpr, and its head the list of the value alone. *)
Lemma tail_and_head_of_cons (x : lval) (q : list lval) :
  (r <- builtin_cons [x; Qexpr q] ;; builtin_tail [r]) = Ret (Qexpr q)
  /\ (r <- builtin_cons [x; Qexpr q] ;; builtin_head [r]) = Ret (Qexpr [x]).
Proof.
  rewrite cons_of_qexpr. cbn [bind]. split.
  - apply tail_of_nonempty.
  - apply head_of_nonempty.
Qed.

(** X10: A non-empty QExpr is the [join] of its [head] and its [tail]. *)
Theorem join_of_head_and_tail (x : lval) (q : list lval) :
  (h <- builtin_head [Qexpr (x :: q)] ;;
   t <- builtin_tail [Qexpr (x :: q)] ;;
   builtin_join [h; t])
  = Ret (Qexpr (x :: q)).
Proof.
  rewrite head_of_nonempty, tail_of_nonempty. cbn [bind].
  change [Qexpr [x]; Qexpr q] with (Qexpr [x] :: map Qexpr [q]).
  rewrite join_of_qexprs. cbn [List.concat app]. rewrite app_nil_r. reflexivity.
Qed.

(** [len] counts what [cons] adds: the length of a value prepended to a
    QExpr of [n] cells is [n + 1], also for the empty QExpr that [len]
    itself rejects. *)
Lemma len_of_cons (x : lval) (q : list lval) :
  (r <- builtin_cons [x; Qexpr q] ;; builtin_len [r]) = Ret (Num (count q + 1)).
Proof.
  rewrite cons_of_qexpr. cbn [bind]. rewrite len_of_nonempty, count_cons. reflexivity.
Qed.

(** X11: [init] never returns a list: every call ends in one of its Errors or in
    the invalid pop. *)
Theorem builtin_init_never_succeeds (a : list lval) :
  builtin_init a = Fault \/ exists msg, builtin_init a = Ret (Err msg).
Proof.
  unfold builtin_init.
  destruct (count a =? 1) eqn:Hc; cbn [negb]; [| right; eexists; reflexivity].
  destruct a as [|c0 a]; [discriminate Hc |].
  cbn [cell_at nth_error bind].
  destruct (is_qexpr c0) eqn:Hq; cbn [negb]; [| right; eexists; reflexivity].
  destruct (count (cells c0) =? 0) eqn:He; [right; eexists; reflexivity |].
  destruct a as [|c1 a]; [| rewrite count_two_more in Hc by lia; discriminate Hc].
  left. change (lval_pop [c0] 0) with (Ret (c0, @nil lval)). cbn [bind].
  reflexivity.
Qed.

(** X12: [head], [tail] and [len] never fault: each returns its result on a
    single non-empty QExpr and an Error on every other argument list. *)
Theorem head_tail_len_total (a : list lval) :
  (exists x q, a = [Qexpr (x :: q)]
               /\ builtin_head a = Ret (Qexpr [x])
               /\ builtin_tail a = Ret (Qexpr q)
               /\ builtin_len a = Ret (Num (count (x :: q))))
  \/ (exists m1 m2 m3,
         builtin_head a = Ret (Err m1)
         /\ builtin_tail a = Ret (Err m2)
         /\ builtin_len a = Ret (Err m3)).
Proof.
  destruct a as [|c0 [|c1 a]].
  - right. do 3 eexists. repeat split; reflexivity.
  - destruct c0 as [n|d|s|s|c|c|b|env f b];
      try (right; do 3 eexists; repeat split; reflexivity).
    destruct c as [|x q].
    + right. do 3 eexists. repeat split; reflexivity.
    + left. exists x, q.
      split; [reflexivity |].
      split; [apply head_of_nonempty |].
      split; [apply tail_of_nonempty | apply len_of_nonempty].
  - right. unfold builtin_head, builtin_tail, builtin_len.
    rewrite count_two_more by lia. cbn [negb].
    do 3 eexists. repeat split; reflexivity.
Qed.

(** ** Reductions over Integers and Floats *)

Lemma wrap64_add_l (a b : Z) : wrap64 (wrap64 a + b) = wrap64 (a + b).
Proof.
  apply wrap64_mod. rewrite Zplus_mod, wrap64_eqm, <- Zplus_mod. reflexivity.
Qed.

Lemma wrap64_sub_l (a b : Z) : wrap64 (wrap64 a - b) = wrap64 (a - b).
Proof.
  apply wrap64_mod. rewrite Zminus_mod, wrap64_eqm, <- Zminus_mod. reflexivity.
Qed.

Lemma wrap64_in_long (z : Z) : in_long (wrap64 z).
Proof.
  unfold in_long, wrap64, LONG_MIN, LONG_MAX.
  pose proof (Z.mod_pos_bound (z + 2 ^ 63) (2 ^ 64) ltac:(lia)). lia.
Qed.

Lemma all_numbers (zs : list Z) : forallb is_number (map Num zs) = true.
Proof. induction zs as [|z zs IH]; [reflexivity | exact IH]. Qed.

(** The reduction started on an Integer, over a list of Integers. *)
Lemma builtin_op_longs (op : string) (x y : Z) (ys : list Z) :
  builtin_op (Num x :: Num y :: map Num ys) op
  = op_loop op (Num x) (Num y :: map Num ys).
Proof.
  unfold builtin_op. cbn [forallb is_number andb]. rewrite all_numbers.
  change (lval_pop (Num x :: Num y :: map Num ys) 0)
    with (Ret (Num x, Num y :: map Num ys)).
  cbn [bind]. rewrite count_nonempty, andb_false_r. reflexivity.
Qed.

Lemma op_loop_add (ys : list Z) :
  forall acc, op_loop "+" (Num (wrap64 acc)) (map Num ys)
              = Ret (Num (wrap64 (acc + fold_right Z.add 0 ys))).
Proof.
  induction ys as [|y ys IH]; intros acc; cbn [map op_loop fold_right].
  - rewrite Z.add_0_r. reflexivity.
  - cbn [op_round]. unfold long_op. string_tests.
    rewrite wrap64_add_l, IH. do 3 f_equal. ring.
Qed.

Lemma op_loop_sub (ys : list Z) :
  forall acc, op_loop "-" (Num (wrap64 acc)) (map Num ys)
              = Ret (Num (wrap64 (acc - fold_right Z.add 0 ys))).
Proof.
  induction ys as [|y ys IH]; intros acc; cbn [map op_loop fold_right].
  - rewrite Z.sub_0_r. reflexivity.
  - cbn [op_round]. unfold long_op. string_tests.
    rewrite wrap64_sub_l, IH. do 3 f_equal. ring.
Qed.

Lemma op_loop_mul (ys : list Z) :
  forall acc, op_loop "*" (Num (wrap64 acc)) (map Num ys)
              = Ret (Num (wrap64 (acc * fold_right Z.mul 1 ys))).
Proof.
  induction ys as [|y ys IH]; intros acc; cbn [map op_loop fold_right].
  - rewrite Z.mul_1_r. reflexivity.
  - cbn [op_round]. unfold long_op. string_tests.
    rewrite wrap64_mul_l, IH. do 3 f_equal. ring.
Qed.

(** X13: [+], [-] and [*] over two or more Integers give the sum, the first
    operand less the sum of the others, and the product, each wrapped once
    to 64 bits: the wrap-around of the single rounds does not add up. *)
Theorem integer_reduction (x y : Z) (ys : list Z) :
  builtin_op (Num x :: Num y :: map Num ys) "+"
  = Ret (Num (wrap64 (x + fold_right Z.add 0 (y :: ys))))
  /\ builtin_op (Num x :: Num y :: map Num ys) "-"
     = Ret (Num (wrap64 (x - fold_right Z.add 0 (y :: ys))))
  /\ builtin_op (Num x :: Num y :: map Num ys) "*"
     = Ret (Num (wrap64 (x * fold_right Z.mul 1 (y :: ys)))).
Proof.
  rewrite !builtin_op_longs. cbn [op_loop op_round fold_right].
  unfold long_op. string_tests.
  rewrite op_loop_add, op_loop_sub, op_loop_mul.
  repeat split; do 3 f_equal; ring.
Qed.

Lemma op_loop_min (ys : list Z) :
  forall acc, op_loop "min" (Num acc) (map Num ys) = Ret (Num (fold_left Z.min ys acc)).
Proof.
  induction ys as [|y ys IH]; intros acc; cbn [map op_loop fold_left]; [reflexivity |].
  cbn [op_round]. unfold long_op. string_tests.
  replace (if acc >? y then y else acc) with (Z.min acc y); [apply IH |].
  destruct (acc >? y) eqn:H.
  - apply Z.gtb_lt in H. lia.
  - rewrite Z.gtb_ltb in H. apply Z.ltb_ge in H. lia.
Qed.

Lemma op_loop_max (ys : list Z) :
  forall acc, op_loop "max" (Num acc) (map Num ys) = Ret (Num (fold_left Z.max ys acc)).
Proof.
  induction ys as [|y ys IH]; intros acc; cbn [map op_loop fold_left]; [reflexivity |].
  cbn [op_round]. unfold long_op. string_tests.
  replace (if acc >? y then acc else y) with (Z.max acc y); [apply IH |].
  destruct (acc >? y) eqn:H.
  - apply Z.gtb_lt in H. lia.
  - rewrite Z.gtb_ltb in H. apply Z.ltb_ge in H. lia.
Qed.

(** X14: [min] and [max] over one or more Integers give the least and the
    greatest operand. *)
Theorem integer_min_max (x : Z) (ys : list Z) :
  builtin_op (Num x :: map Num ys) "min" = Ret (Num (fold_left Z.min ys x))
  /\ builtin_op (Num x :: map Num ys) "max" = Ret (Num (fold_left Z.max ys x)).
Proof.
  unfold builtin_op. cbn [forallb is_number andb]. rewrite all_numbers.
  change (lval_pop (Num x :: map Num ys) 0) with (Ret (Num x, map Num ys)).
  cbn [bind]. string_tests. cbn [andb].
  split; [apply op_loop_min | apply op_loop_max].
Qed.

(** X15: Unary [-] on an Integer is its own inverse on every 64-bit value,
    [LONG_MIN] included, which it leaves as it is. *)
Theorem negation_involutive (a : Z) :
  in_long a ->
  builtin_op [Num a] "-" = Ret (Num (wrap64 (- a)))
  /\ builtin_op [Num (wrap64 (- a))] "-" = Ret (Num a)
  /\ builtin_op [Num LONG_MIN] "-" = Ret (Num LONG_MIN).
Proof.
  intros Ha. repeat split.
  unfold builtin_op. cbn [forallb is_number andb].
  change (lval_pop [Num (wrap64 (- a))] 0) with (Ret (Num (wrap64 (- a)), @nil lval)).
  cbn [bind]. string_tests.
  change (count [] =? 0) with true. cbn [andb negate op_loop].
  do 2 f_equal.
  replace (- wrap64 (- a)) with (0 - wrap64 (- a)) by lia.
  rewrite <- (wrap64_small a Ha) at 2.
  apply wrap64_mod.
  rewrite Zminus_mod, wrap64_eqm, <- Zminus_mod. f_equal. lia.
Qed.

Lemma op_round_float (op : string) (a : double) (y : lval) :
  is_number y = true -> exists d, op_round op (Flt a) y = Next (Flt d).
Proof.
  destruct y as [b|b| | | | | |]; try discriminate; intros _; cbn [op_round].
  - destruct (float_op op a (double_of_long b)); cbn [set_dnum]; eauto.
  - destruct (float_op op a b); cbn [set_dnum]; eauto.
Qed.

Lemma op_loop_float (op : string) (ys : list lval) :
  forall a, forallb is_number ys = true ->
            exists d, op_loop op (Flt a) ys = Ret (Flt d).
Proof.
  induction ys as [|y ys IH]; intros a H; cbn [op_loop]; [eauto |].
  cbn [forallb] in H. apply andb_prop in H. destruct H as [Hy Hys].
  destruct (op_round_float op a y Hy) as (d & ->). exact (IH d Hys).
Qed.

(** X16: A reduction whose first operand is a Float gives a Float for every
    operator and every list of numbers after it: it neither traps nor
    returns an Error, a division or remainder by the Integer 0 included. *)
Theorem float_reduction_stays_float (op : string) (a : double) (ys : list lval) :
  forallb is_number ys = true ->
  exists d, builtin_op (Flt a :: ys) op = Ret (Flt d).
Proof.
  intros H. unfold builtin_op. cbn [forallb is_number andb]. rewrite H.
  change (lval_pop (Flt a :: ys) 0) with (Ret (Flt a, ys)). cbn [bind].
  destruct ((op =? "-")%string && (count ys =? 0)); cbn [negate];
    apply op_loop_float, H.
Qed.

(** X8: The Integer remainder by a divisor other than 0 is the remainder of the
    truncating division, with the sign of the dividend; the one pair whose
    quotient overflows is left out. *)
Theorem integer_remainder (a b : Z) :
  b <> 0 -> ~ (a = LONG_MIN /\ b = -1) ->
  builtin_op [Num a; Num b] "%" = Ret (Num (Z.rem a b))
  /\ Z.abs (Z.rem a b) < Z.abs b
  /\ 0 <= Z.rem a b * a.
Proof.
  intros Hb Hov. split; [| split].
  - rewrite builtin_op_two_longs. unfold long_op. string_tests.
    unfold lrem. destruct (b =? 0) eqn:Hb0; [apply Z.eqb_eq in Hb0; contradiction |].
    destruct ((a =? LONG_MIN) && (b =? -1)) eqn:Hmin; [| reflexivity].
    apply andb_prop in Hmin. destruct Hmin as [H1 H2].
    apply Z.eqb_eq in H1, H2. exfalso. auto.
  - apply Z.rem_bound_abs, Hb.
  - apply Z.rem_sign_mul, Hb.
Qed.

Lemma quot_in_long (a b : Z) :
  in_long a -> in_long b -> b <> 0 -> ~ (a = LONG_MIN /\ b = -1) ->
  in_long (Z.quot a b).
Proof.
  unfold in_long, LONG_MIN, LONG_MAX. intros Ha Hb Hb0 Hov.
  assert (Hcases : b = 1 \/ b = -1 \/ 2 <= Z.abs b) by lia.
  destruct Hcases as [-> | [-> | Hbig]].
  - rewrite Z.quot_1_r. exact Ha.
  - change (-1) with (Z.opp 1). rewrite Z.quot_opp_r, Z.quot_1_r by lia.
    assert (a <> - 2 ^ 63) by (intros E; apply Hov; split; [exact E | reflexivity]).
    lia.
  - assert (Habs : Z.abs (Z.quot a b) <= 2 ^ 62).
    { rewrite <- Z.quot_abs by exact Hb0.
      rewrite Z.quot_div_nonneg by lia.
      apply Z.div_le_upper_bound; [lia |].
      assert (Z.abs a <= 2 ^ 63) by lia.
      change (2 ^ 63) with (2 * 2 ^ 62) in H. nia. }
    lia.
Qed.

(** X17: Integer arithmetic stays in the 64-bit range: whatever a round of the
    reduction over two Integers of that range leaves in the accumulator is
    again in range, for every operator. *)
Theorem integer_round_in_range (op : string) (a b r : Z) :
  in_long a -> in_long b ->
  long_op op a b = Next (Num r) -> in_long r.
Proof.
  intros Ha Hb. unfold long_op.
  repeat match goal with
         | |- context [if (?o =? ?s)%string then _ else _] =>
             destruct (o =? s)%string
         end;
    try (intros H; injection H as <-; apply wrap64_in_long).
  - destruct (b =? 0) eqn:Hb0; [discriminate |]. apply Z.eqb_neq in Hb0.
    unfold ldiv. rewrite (proj2 (Z.eqb_neq b 0) Hb0).
    destruct ((a =? LONG_MIN) && (b =? -1)) eqn:Hmin; [discriminate |].
    intros H; injection H as <-. apply quot_in_long; try assumption.
    intros [H1 H2]. subst. discriminate Hmin.
  - unfold lrem. destruct (b =? 0) eqn:Hb0; [discriminate |]. apply Z.eqb_neq in Hb0.
    destruct ((a =? LONG_MIN) && (b =? -1)); [discriminate |].
    intros H; injection H as <-.
    pose proof (Z.rem_bound_abs a b Hb0). unfold in_long, LONG_MIN, LONG_MAX in *. lia.
  - intros H; injection H as <-. unfold ipow.
    rewrite <- ipow_loop_wrapped by reflexivity. apply wrap64_in_long.
  - intros H; injection H as <-. destruct (a >? b); assumption.
  - intros H; injection H as <-. destruct (a >? b); assumption.
  - intros H; injection H as <-. exact Ha.
Qed.

Lemma ipow_loop_nonpositive (n : nat) (res base exp : Z) :
  exp <= 0 -> ipow_loop n res base exp = res.
Proof.
  intros H. destruct n as [|n]; [reflexivity |]. cbn [ipow_loop].
  replace (0 <? exp) with false by (symmetry; apply Z.ltb_ge; lia).
  reflexivity.
Qed.

Lemma wrap32_period (e : Z) : wrap32 (e + 2 ^ 32) = wrap32 e.
Proof.
  unfold wrap32. replace (e + 2 ^ 32 + 2 ^ 31) with (e + 2 ^ 31 + 1 * 2 ^ 32) by lia.
  rewrite Z_mod_plus_full. reflexivity.
Qed.

(** X18: The exponent of the Integer [^] is read as a 32-bit [int]: exponents
    that differ by [2 ^ 32] give the same power, and a negative exponent of
    the [int] range gives 1 whatever the base. *)
Theorem pow_exponent_as_int (b e : Z) :
  - 2 ^ 31 <= e < 0 ->
  builtin_op [Num b; Num e] "^" = Ret (Num 1)
  /\ builtin_op [Num b; Num (e + 2 ^ 32)] "^" = Ret (Num 1)
  /\ forall e', builtin_op [Num b; Num (e' + 2 ^ 32)] "^"
                = builtin_op [Num b; Num e'] "^".
Proof.
  intros He.
  assert (Hneg : builtin_op [Num b; Num e] "^" = Ret (Num 1)).
  { rewrite builtin_op_two_longs. unfold long_op. string_tests.
    replace (wrap32 e) with e by (unfold wrap32; rewrite Z.mod_small; lia).
    unfold ipow. rewrite ipow_loop_nonpositive by lia. reflexivity. }
  assert (Hper : forall e', builtin_op [Num b; Num (e' + 2 ^ 32)] "^"
                            = builtin_op [Num b; Num e'] "^").
  { intros e'. rewrite !builtin_op_two_longs. unfold long_op. string_tests.
    rewrite wrap32_period. reflexivity. }
  split; [exact Hneg | split; [rewrite Hper; exact Hneg | exact Hper]].
Qed.

(** ** Evaluation of S-expressions, continued *)

Lemma find_err_absent (c : list lval) :
  existsb is_err c = false -> find is_err c = None.
Proof.
  induction c as [|x c IH]; intros H; [reflexivity |].
  cbn [existsb] in H. apply orb_false_iff in H. destruct H as [H1 H2].
  cbn [find]. rewrite H1. exact (IH H2).
Qed.

Lemma singleton_sexpr_eq (n : nat) (e : lenv) (v : lval) :
  lval_eval (S n) e (Sexpr [v]) = lval_eval n e v.
Proof.
  cbn [lval_eval eval_dispatch]. unfold lval_eval_sexpr. cbn [eval_cells].
  destruct (lval_eval n e v) as [[e1 w]| |]; cbn [bind]; [| reflexivity | reflexivity].
  destruct w; reflexivity.
Qed.

(** X19: An S-expression of one child evaluates to what the child evaluates to,
    with one more level of fuel: a function alone in parentheses is
    returned, not called. *)
Theorem singleton_sexpr (n : nat) (e : lenv) (v : lval) :
  lval_eval (S n) e (Sexpr [v]) = lval_eval n e v.
Proof.
  cbn [lval_eval eval_dispatch]. unfold lval_eval_sexpr. cbn [eval_cells].
  destruct (lval_eval n e v) as [[e1 w]| |]; cbn [bind]; [| reflexivity | reflexivity].
  destruct w; reflexivity.
Qed.

(** X20: When the children evaluate without an Error to two or more values and
    the first is not a function, the S-expression is the Error that names
    the kind of that first value. *)
Theorem sexpr_needs_function (n : nat) (e e' : lenv) (c : list lval)
        (f x : lval) (rest : list lval) :
  eval_cells (lval_eval n) e c = Ret (e', f :: x :: rest) ->
  existsb is_err (f :: x :: rest) = false ->
  type_of f <> LVAL_FUN ->
  lval_eval (S n) e (Sexpr c)
  = Ret (e', lval_err ("S-Expression starts with incorrect type. Got "
                       ++ ltype_name (type_of f) ++ ", Expected Function.")).
Proof.
  intros Hcells Herr Hf.
  cbn [lval_eval eval_dispatch]. unfold lval_eval_sexpr.
  rewrite Hcells. cbn [bind]. rewrite find_err_absent by exact Herr.
  rewrite !count_two_more by lia.
  change (lval_pop (f :: x :: rest) 0) with (Ret (f, x :: rest)). cbn [bind].
  destruct (type_of f); try reflexivity. contradiction.
Qed.

(** ** Closures *)

Lemma bind_loop_names (names : list string) (args : list lval) (fenv : lenv)
      (more : list lval) (given total : Z) :
  List.length names = List.length args ->
  no_marker names = true ->
  bind_loop fenv (map Sym names) (args ++ more)%list given total
  = bind_loop (put_all fenv names args) [] more given total.
Proof.
  intros Hlen Hno.
  rewrite <- (app_nil_r (map Sym names)).
  apply bind_loop_prefix; assumption.
Qed.

(** X21: A closure whose formals are all bound and that is given at least one
    argument more returns the Error with the two counts; its body is not
    evaluated and the caller's environment is as before. *)
Theorem too_many_arguments
        (ev : lenv -> lval -> outcome (lenv * lval))
        (e fenv : lenv) (names : list string) (body : lval)
        (args : list lval) (v : lval) (more : list lval) :
  List.length names = List.length args ->
  no_marker names = true ->
  lval_call ev e (Lambda fenv (Qexpr (map Sym names)) body) (args ++ v :: more)%list
  = Ret (e, lval_err ("Function passed too many arguments. Got "
                      ++ fmt_int (count (args ++ v :: more)%list) ++ ", Expected "
                      ++ fmt_int (count (map Sym names)) ++ ".")).
Proof.
  intros Hlen Hno. unfold lval_call. cbn [cells].
  rewrite bind_loop_names by assumption.
  reflexivity.
Qed.

Lemma call_saturated
      (ev : lenv -> lval -> outcome (lenv * lval))
      (e fenv : lenv) (names : list string) (body : lval) (args : list lval) :
  List.length names = List.length args ->
  no_marker names = true ->
  lval_call ev e (Lambda fenv (Qexpr (map Sym names)) body) args
  = ('(fe, r) <- builtin_eval ev (Lenv (Some e) (binds (put_all fenv names args)))
                   [lval_copy body] ;;
     Ret (caller_env fe e, r)).
Proof.
  intros Hlen Hno. unfold lval_call. cbn [cells].
  pose proof (bind_loop_names names args fenv [] (count args)
                (count (map Sym names)) Hlen Hno) as Hloop.
  rewrite app_nil_r in Hloop. rewrite Hloop.
  reflexivity.
Qed.

(** X22: A closure given exactly as many arguments as it has formals, none of
    them the marker, evaluates a copy of its body as an S-expression in its
    own environment: the arguments bound in order, and the environment of
    the caller, not the one the closure was made in, as its parent. *)
Theorem saturated_call
        (ev : lenv -> lval -> outcome (lenv * lval))
        (e fenv : lenv) (names : list string) (body : lval) (args : list lval) :
  List.length names = List.length args ->
  no_marker names = true ->
  lval_call ev e (Lambda fenv (Qexpr (map Sym names)) body) args
  = ('(fe, r) <- builtin_eval ev (Lenv (Some e) (binds (put_all fenv names args)))
                   [lval_copy body] ;;
     Ret (caller_env fe e, r)).
Proof.
  intros Hlen Hno. unfold lval_call. cbn [cells].
  pose proof (bind_loop_names names args fenv [] (count args)
                (count (map Sym names)) Hlen Hno) as Hloop.
  rewrite app_nil_r in Hloop. rewrite Hloop.
  reflexivity.
Qed.

(** X23: The identity closure [(\ {k} {k})] returns its argument, for every
    argument without a double, and leaves the caller's environment as it
    was, whatever its own environment held. *)
Theorem identity_closure (n : nat) (e fenv : lenv) (k : string) (v : lval) :
  (k =? "&")%string = false ->
  float_free v = true ->
  lval_call (lval_eval (2 + n)) e (Lambda fenv (Qexpr [Sym k]) (Qexpr [Sym k])) [v]
  = Ret (e, v).
Proof.
  intros Hk Hv.
  assert (Hno : no_marker [k] = true)
    by (cbn [no_marker forallb]; rewrite Hk; reflexivity).
  pose proof (call_saturated (lval_eval (2 + n)) e fenv [k] (Qexpr [Sym k]) [v]
                eq_refl Hno) as Hcall.
  cbn [map] in Hcall. rewrite Hcall.
  unfold builtin_eval.
  change (lval_copy (Qexpr [Sym k])) with (Qexpr [Sym k]).
  replace (count [Qexpr [Sym k]] =? 1) with true by reflexivity.
  cbn [negb cell_at nth_error bind is_qexpr].
  change (lval_take [Qexpr [Sym k]] 0) with (Ret (Qexpr [Sym k])).
  cbn [bind cells].
  change (lval_eval (2 + n)) with (lval_eval (S (S n))).
  rewrite singleton_sexpr_eq.
  cbn [lval_eval eval_dispatch bind caller_env par].
  unfold put_all. cbn [combine fold_left fst snd].
  rewrite lenv_get_put, copy_twice_float_free by exact Hv.
  reflexivity.
Qed.

(** ** Lambda and the binding builtins *)

Lemma find_non_symbol (names : list string) :
  find (fun v => negb (is_sym v)) (map Sym names) = None.
Proof. induction names as [|s names IH]; [reflexivity | exact IH]. Qed.

Lemma count_map_sym (names : list string) :
  count (map Sym names) = Z.of_nat (List.length names).
Proof. unfold count. rewrite length_map. reflexivity. Qed.

(** X25: [\] on a list of symbols and a body gives the closure with these
    formals and this body and with an empty environment without a parent:
    nothing of the environment in which [\] is evaluated is captured, and
    that environment is left as it is. *)
Theorem lambda_captures_nothing
        (ev : lenv -> lval -> outcome (lenv * lval))
        (e : lenv) (names : list string) (body : list lval) :
  call_builtin ev builtin_lambda_p e [Qexpr (map Sym names); Qexpr body]
  = Ret (e, Lambda (Lenv None []) (Qexpr (map Sym names)) (Qexpr body)).
Proof.
  cbn [call_builtin]. unfold builtin_lambda.
  replace (count [Qexpr (map Sym names); Qexpr body] =? 2) with true by reflexivity.
  cbn [negb cell_at nth_error bind is_qexpr cells].
  rewrite find_non_symbol. reflexivity.
Qed.

(** [\] rejects formals that are not all symbols with the Error naming the
    kind of the first that is not. *)
Lemma lambda_rejects_non_symbol (pre : list string) (bad : lval)
        (post body : list lval) :
  is_sym bad = false ->
  builtin_lambda [Qexpr (map Sym pre ++ bad :: post)%list; Qexpr body]
  = Ret (lval_err ("Cannot define non-symbol. Got " ++ ltype_name (type_of bad)
                   ++ ", Expected Symbol.")).
Proof.
  intros Hbad. unfold builtin_lambda.
  replace (count [Qexpr (map Sym pre ++ bad :: post)%list; Qexpr body] =? 2)
    with true by reflexivity.
  cbn [negb cell_at nth_error bind is_qexpr cells].
  replace (find (fun v => negb (is_sym v)) (map Sym pre ++ bad :: post)%list)
    with (Some bad); [reflexivity |].
  induction pre as [|s pre IH]; cbn [map app find is_sym negb].
  - rewrite Hbad. reflexivity.
  - exact IH.
Qed.

Lemma var_loop_def (names : list string) :
  forall (vals : list lval) (e : lenv),
    List.length names = List.length vals ->
    var_loop "def" e (map Sym names) vals = Ret (def_all e names vals).
Proof.
  induction names as [|s names IH]; intros vals e Hlen.
  - destruct vals; [reflexivity | discriminate Hlen].
  - destruct vals as [|v vals]; [discriminate Hlen |].
    cbn [map var_loop sym_name bind]. string_tests.
    rewrite IH by (cbn in Hlen; lia). reflexivity.
Qed.

Lemma var_loop_put (names : list string) :
  forall (vals : list lval) (e : lenv),
    List.length names = List.length vals ->
    var_loop "=" e (map Sym names) vals = Ret (put_all e names vals).
Proof.
  induction names as [|s names IH]; intros vals e Hlen.
  - destruct vals; [reflexivity | discriminate Hlen].
  - destruct vals as [|v vals]; [discriminate Hlen |].
    cbn [map var_loop sym_name bind]. string_tests.
    rewrite IH by (cbn in Hlen; lia). reflexivity.
Qed.

Lemma builtin_var_checks (e : lenv) (names : list string) (vals : list lval)
      (func : string) :
  List.length names = List.length vals ->
  builtin_var e (Qexpr (map Sym names) :: vals) func
  = (e' <- var_loop func e (map Sym names) vals ;; Ret (e', Sexpr [])).
Proof.
  intros Hlen. unfold builtin_var.
  cbn [cell_at nth_error bind is_qexpr negb cells tl].
  rewrite find_non_symbol.
  replace (count (map Sym names) =? count (Qexpr (map Sym names) :: vals) - 1)
    with true; [reflexivity |].
  symmetry. apply Z.eqb_eq. rewrite count_cons, count_map_sym. unfold count. lia.
Qed.

(** X26: [def] and [=] given a list of symbols and as many values return the
    empty S-expression after binding each symbol to its value, in order:
    [def] in the root of the chain, [=] in the current scope. *)
Theorem def_and_put_bind_in_order (e : lenv) (names : list string) (vals : list lval) :
  List.length names = List.length vals ->
  builtin_var e (Qexpr (map Sym names) :: vals) "def"
  = Ret (def_all e names vals, Sexpr [])
  /\ builtin_var e (Qexpr (map Sym names) :: vals) "="
     = Ret (put_all e names vals, Sexpr []).
Proof.
  intros Hlen. rewrite !builtin_var_checks by exact Hlen.
  rewrite var_loop_def, var_loop_put by exact Hlen. split; reflexivity.
Qed.

(** X27: [def] and [=] bind all or nothing: whenever the call returns, it is
    either the empty S-expression, or an Error with the environment exactly
    as it was. *)
Theorem def_and_put_all_or_nothing (e e' : lenv) (a : list lval)
        (func : string) (v : lval) :
  builtin_var e a func = Ret (e', v) ->
  v = Sexpr [] \/ (is_err v = true /\ e' = e).
Proof.
  unfold builtin_var. destruct (cell_at a 0) as [c0| |]; cbn [bind]; try discriminate.
  destruct (is_qexpr c0); cbn [negb].
  2:{ intros H. injection H as <- <-. right. split; reflexivity. }
  destruct (find (fun v0 => negb (is_sym v0)) (cells c0)).
  { intros H. injection H as <- <-. right. split; reflexivity. }
  destruct (count (cells c0) =? count a - 1); cbn [negb].
  2:{ intros H. injection H as <- <-. right. split; reflexivity. }
  destruct (var_loop func e (cells c0) (tl a)); cbn [bind]; try discriminate.
  intros H. injection H as <- <-. left. reflexivity.
Qed.

(** With fewer or more values than symbols, [def] and [=] return the Error
    with the two counts and bind nothing. *)
Lemma def_and_put_count_mismatch (e : lenv) (names : list string)
        (vals : list lval) (func : string) :
  List.length names <> List.length vals ->
  builtin_var e (Qexpr (map Sym names) :: vals) func
  = Ret (e, lval_err ("Function '" ++ func
                      ++ "' passed too many arguments for symbols. Got "
                      ++ fmt_int (Z.of_nat (List.length names)) ++ ", Expected "
                      ++ fmt_int (Z.of_nat (List.length vals)) ++ ".")).
Proof.
  intros Hlen. unfold builtin_var.
  cbn [cell_at nth_error bind is_qexpr negb cells].
  rewrite find_non_symbol.
  replace (count (map Sym names) =? count (Qexpr (map Sym names) :: vals) - 1)
    with false.
  - cbn [negb]. rewrite count_cons, count_map_sym. unfold count.
    replace (Z.of_nat (List.length vals) + 1 - 1) with (Z.of_nat (List.length vals)) by lia.
    reflexivity.
  - symmetry. apply Z.eqb_neq. rewrite count_cons, count_map_sym. unfold count. lia.
Qed.

(** ** Error messages *)

Lemma substring_length (s : string) :
  forall m, String.length (substring 0 m s) = Nat.min m (String.length s).
Proof.
  induction s as [|c s IH]; intros m; destruct m as [|m]; cbn; try reflexivity.
  rewrite IH. reflexivity.
Qed.

Lemma substring_prefix (s : string) :
  forall m, String.prefix (substring 0 m s) s = true.
Proof.
  induction s as [|c s IH]; intros m; destruct m as [|m]; cbn; try reflexivity.
  destruct (ascii_dec c c) as [_ | Hne]; [apply IH | contradiction].
Qed.

(** X28: The message of an Error is the formatted text cut after 510
    characters: a prefix of the text, of the length of the text or of 510
    when the text is longer. *)
Theorem lval_err_bounded (msg : string) :
  exists s, lval_err msg = Err s
            /\ String.prefix s msg = true
            /\ String.length s = Nat.min 510 (String.length msg).
Proof.
  exists (substring 0 510 msg). split; [reflexivity | split].
  - apply substring_prefix.
  - apply substring_length.
Qed.

(** ** Calls with literal arguments *)

Lemma eval_literal (n : nat) (e : lenv) (v : lval) :
  self_evaluating v = true -> lval_eval (S n) e v = Ret (e, v).
Proof. destruct v; cbn; intros H; solve [reflexivity | discriminate H]. Qed.

Lemma eval_cells_literals (n : nat) (e : lenv) (c : list lval) :
  forallb self_evaluating c = true -> eval_cells (lval_eval (S n)) e c = Ret (e, c).
Proof.
  induction c as [|x c IH]; intros H; [reflexivity |].
  cbn [forallb] in H. apply andb_prop in H. destruct H as [Hx Hc].
  cbn [eval_cells]. rewrite eval_literal by exact Hx.
  cbn [bind]. rewrite IH by exact Hc. reflexivity.
Qed.

Lemma eval_native_literals (n : nat) (e : lenv) (name : string) (b : lbuiltin)
      (x : lval) (args : list lval) :
  lenv_get e name = Fun b ->
  forallb self_evaluating (x :: args) = true ->
  existsb is_err (x :: args) = false ->
  lval_eval (2 + n) e (Sexpr (Sym name :: x :: args))
  = call_builtin (lval_eval (S n)) b e (x :: args).
Proof.
  intros Hget Hlit Herr.
  change (lval_eval (2 + n) e (Sexpr (Sym name :: x :: args)))
    with (lval_eval_sexpr (lval_eval (S n)) e (Sym name :: x :: args)).
  unfold lval_eval_sexpr.
  change (eval_cells (lval_eval (S n)) e (Sym name :: x :: args))
    with ('(e1, r) <- eval_cells (lval_eval (S n)) e (x :: args) ;;
          Ret (e1, lenv_get e name :: r)).
  rewrite eval_cells_literals by exact Hlit.
  rewrite Hget. cbn [bind].
  change (find is_err (Fun b :: x :: args)) with (find is_err (x :: args)).
  rewrite find_err_absent by exact Herr.
  rewrite !count_two_more by lia.
  reflexivity.
Qed.

(** X29: A symbol bound to a native function, followed by one or more literal
    arguments none of which is an Error, evaluates to the call of that
    function on exactly these arguments: QExprs, numbers and functions are
    passed as they are. *)
Theorem native_call_on_literals (n : nat) (e : lenv) (name : string)
        (b : lbuiltin) (x : lval) (args : list lval) :
  lenv_get e name = Fun b ->
  forallb self_evaluating (x :: args) = true ->
  existsb is_err (x :: args) = false ->
  lval_eval (2 + n) e (Sexpr (Sym name :: x :: args))
  = call_builtin (lval_eval (S n)) b e (x :: args).
Proof.
  intros Hget Hlit Herr.
  change (lval_eval (2 + n) e (Sexpr (Sym name :: x :: args)))
    with (lval_eval_sexpr (lval_eval (S n)) e (Sym name :: x :: args)).
  unfold lval_eval_sexpr.
  change (eval_cells (lval_eval (S n)) e (Sym name :: x :: args))
    with ('(e1, r) <- eval_cells (lval_eval (S n)) e (x :: args) ;;
          Ret (e1, lenv_get e name :: r)).
  rewrite eval_cells_literals by exact Hlit.
  rewrite Hget. cbn [bind].
  change (find is_err (Fun b :: x :: args)) with (find is_err (x :: args)).
  rewrite find_err_absent by exact Herr.
  rewrite !count_two_more by lia.
  reflexivity.
Qed.

(** X30: After [(def {k} v)] is evaluated at any depth, the symbol [k]
    evaluates to [v] from that depth when no scope below the root binds
    [k]; [v] is a literal without a double. *)
Theorem def_then_symbol (n m : nat) (e : lenv) (k : string) (v : lval) :
  lenv_get e "def" = Fun builtin_def_p ->
  shadowed k e = false ->
  self_evaluating v = true -> is_err v = false -> float_free v = true ->
  lval_eval (2 + n) e (Sexpr [Sym "def"; Qexpr [Sym k]; v])
  = Ret (lenv_def e k v, Sexpr [])
  /\ lval_eval (S m) (lenv_def e k v) (Sym k) = Ret (lenv_def e k v, v).
Proof.
  intros Hdef Hsh Hlit Herr Hff. split.
  - rewrite (eval_native_literals n e "def" builtin_def_p (Qexpr [Sym k]) [v] Hdef)
      by (cbn [forallb existsb self_evaluating is_err orb andb];
          rewrite ?Hlit, ?Herr; reflexivity).
    cbn [call_builtin].
    change [Sym k] with (map Sym [k]).
    rewrite builtin_var_checks by reflexivity.
    rewrite var_loop_def by reflexivity. reflexivity.
  - cbn [lval_eval eval_dispatch].
    rewrite lenv_get_def_unshadowed by exact Hsh.
    rewrite copy_twice_float_free by exact Hff. reflexivity.
Qed.

(** ** Partial application, continued *)








(** C7 at a Float among the surplus arguments: the formal after [&] is
    bound by [lenv_put], which stores a copy, and looked up by [lenv_get],
    which returns a copy; [lval_copy] leaves the [dnum] of a Float
    unwritten, so [((\ {x & xs} {xs}) 1 d 3)] is the QExpr of the unwritten
    double and 3 for every Float [d], not {d 3}.  Without a Float the
    surplus arguments come back as they are: [((\ {x & xs} {xs}) 1 2 3)] is
    {2 3}. *)
Theorem variadic_float_argument_unwritten (n : nat) (d : double) :
  lval_eval (3 + n) global_env (Sexpr [rest_xs; Num 1; Flt d; Num 3])
  = Ret (global_env, Qexpr [Flt indet; Num 3])
  /\ lval_eval (3 + n) global_env (Sexpr [rest_xs; Num 1; Num 2; Num 3])
     = Ret (global_env, Qexpr [Num 2; Num 3]).
Proof. split; reflexivity. Qed.

End Interpreter.

(** * Worked examples

    The interpreter run with [any_libm] for [fmod] and [pow] and with
    [zeroed] for the unwritten double. *)

#[local] Set Warnings "-notation-for-abbreviation".
Local Notation ge := (global_env zeroed).
Local Notation eval_in fuel := (lval_eval any_libm any_libm zeroed fuel).

(** A Float bound to a name comes back as the unwritten double: with a
    zeroed allocation, [2.5] is read back as [0.0]. *)
Lemma copy_of_float_loses_number :
  lval_copy zeroed (Flt two_and_half) <> Flt two_and_half
  /\ lenv_get zeroed (lenv_put zeroed lenv_new "x" (Flt two_and_half)) "x"
     = Flt zeroed.
Proof. split; [discriminate | reflexivity]. Qed.

(** [(/ 7 -2)] is -3, and [(/ 7 0 3)] the Error. *)
Lemma div_truncates_or_reports_zero_witness :
  (-2 <> 0 /\ ~ (7 = LONG_MIN /\ -2 = -1) /\ forallb is_number [Num 3] = true)
  /\ eval_in 2%nat ge (Sexpr [Sym "/"; Num 7; Num (-2)]) = Ret (ge, Num (-3))
  /\ eval_in 2%nat ge (Sexpr [Sym "/"; Num 7; Num 0; Num 3])
     = Ret (ge, Err "Division By Zero!").
Proof.
  split.
  - split; [lia | split; [intros [_ H]; lia | reflexivity]].
  - apply (div_truncates_or_reports_zero any_libm any_libm zeroed 0 7 (-2) [Num 3]);
      [lia | intros [_ H]; lia | reflexivity].
Defined.

(** C5 as stated fails at the one quotient that overflows: the division of
    [LONG_MIN] by -1 traps. *)
Lemma div_overflow_faults :
  -1 <> 0
  /\ eval_in 2%nat ge (Sexpr [Sym "/"; Num LONG_MIN; Num (-1)]) = Fault.
Proof. split; [lia | reflexivity]. Qed.

(** [(^ 2 10)] *)
Lemma ipow_matches_iteration_witness :
  0 <= 10 <= INT_MAX
  /\ ipow 2 10 = pow_iter 2 (Z.to_nat 10)
  /\ eval_in 2%nat ge (Sexpr [Sym "^"; Num 2; Num 10])
     = Ret (ge, Num (pow_iter 2 (Z.to_nat 10)))
  /\ eval_in 2%nat ge (Sexpr [Sym "^"; Num 2; Num 10]) = Ret (ge, Num 1024).
Proof.
  split.
  - unfold INT_MAX. lia.
  - apply (ipow_matches_iteration any_libm any_libm zeroed 0 2 10).
    unfold INT_MAX. lia.
Defined.

(** [(nope 1 nada)] with both symbols unbound: the Error of [nope]. *)
Lemma sexpr_first_error_wins_witness :
  (eval_cells (eval_in 1%nat) ge [Sym "nope"; Num 1; Sym "nada"]
   = Ret (ge, [Err "Unbound Symbol 'nope'"; Num 1; Err "Unbound Symbol 'nada'"])
   /\ existsb is_err
        [Err "Unbound Symbol 'nope'"; Num 1; Err "Unbound Symbol 'nada'"] = true)
  /\ exists l1 msg l2,
      [Err "Unbound Symbol 'nope'"; Num 1; Err "Unbound Symbol 'nada'"]
      = (l1 ++ Err msg :: l2)%list
      /\ forallb (fun v => negb (is_err v)) l1 = true
      /\ eval_in 2%nat ge (Sexpr [Sym "nope"; Num 1; Sym "nada"]) = Ret (ge, Err msg).
Proof.
  split.
  - split; reflexivity.
  - apply (sexpr_first_error_wins any_libm any_libm zeroed 1 ge ge
             [Sym "nope"; Num 1; Sym "nada"]
             [Err "Unbound Symbol 'nope'"; Num 1; Err "Unbound Symbol 'nada'"]);
      reflexivity.
Defined.

(** [(\ {x y} {+ x y})] called with [1], with an evaluator that has no fuel
    left: the body is not evaluated. *)
Lemma partial_application_witness :
  (List.length ["x"] = List.length [Num 1]
   /\ no_marker ["x"] = true
   /\ ("y" =? "&")%string = false)
  /\ lval_call any_libm any_libm zeroed (eval_in 0%nat) ge
       (Lambda lenv_new (Qexpr (map Sym ["x"] ++ Sym "y" :: [])%list)
               (Qexpr [Sym "+"; Sym "x"; Sym "y"]))
       [Num 1]
     = Ret (ge, lval_copy zeroed
                  (Lambda (put_all zeroed lenv_new ["x"] [Num 1])
                          (Qexpr [Sym "y"]) (Qexpr [Sym "+"; Sym "x"; Sym "y"])))
  /\ eval_in 4%nat ge (Sexpr [add_xy; Num 1])
     = Ret (ge, Lambda (Lenv None [("x", Num 1)]) (Qexpr [Sym "y"])
                       (Qexpr [Sym "+"; Sym "x"; Sym "y"]))
  /\ eval_in 5%nat ge (Sexpr [Sexpr [add_xy; Num 1]; Num 2]) = Ret (ge, Num 3).
Proof.
  split.
  - repeat split.
  - apply (partial_application any_libm any_libm zeroed (eval_in 0%nat) 0 ge
             lenv_new ["x"] "y" [] (Qexpr [Sym "+"; Sym "x"; Sym "y"]) [Num 1]);
      reflexivity.
Defined.

(** C6 as stated fails when the formals hold the marker: one argument for
    the three formals of [(\ {x & xs} {xs})], and the body is evaluated; the
    result is the empty QExpr, not a Function. *)
Lemma fewer_arguments_with_marker_evaluates :
  value_of (eval_in 3%nat ge (Sexpr [rest_xs; Num 1])) = Ret (Qexpr [])
  /\ type_of (Qexpr []) <> LVAL_FUN.
Proof. split; [reflexivity | discriminate]. Qed.

(** With two formals after the marker, as in [(\ {& a b} {a})], the call
    is the Error of the malformed formals. *)
Lemma marker_with_two_formals_is_error :
  value_of (eval_in 3%nat ge (Sexpr [bad_variadic; Num 1]))
  = Ret (Err "Function format invalid. Symbol '&' not followed by single symbol.").
Proof. reflexivity. Qed.

(** ** Environments *)

Lemma lenv_put_then_get_witness :
  (float_free (Num 2) = true /\ ("y" =? "x")%string = false
   /\ float_free (lenv_get zeroed (Lenv None [("x", Num 1); ("y", Num 5)]) "y") = true)
  /\ lenv_get zeroed (lenv_put zeroed (Lenv None [("x", Num 1); ("y", Num 5)]) "x" (Num 2)) "x"
     = Num 2
  /\ lenv_get zeroed (lenv_put zeroed (Lenv None [("x", Num 1); ("y", Num 5)]) "x" (Num 2)) "y"
     = lenv_get zeroed (Lenv None [("x", Num 1); ("y", Num 5)]) "y".
Proof.
  split.
  - repeat split.
  - apply (lenv_put_then_get zeroed (Lenv None [("x", Num 1); ("y", Num 5)])
             "x" "y" (Num 2)); reflexivity.
Defined.

Lemma lenv_put_names_witness :
  NoDup (names_of (Lenv None [("x", Num 1)]))
  /\ names_of (lenv_put zeroed (Lenv None [("x", Num 1)]) "y" (Num 2))
     = (if bound_here "y" (Lenv None [("x", Num 1)])
        then names_of (Lenv None [("x", Num 1)])
        else (names_of (Lenv None [("x", Num 1)]) ++ ["y"])%list)
  /\ NoDup (names_of (lenv_put zeroed (Lenv None [("x", Num 1)]) "y" (Num 2))).
Proof.
  assert (H : NoDup (names_of (Lenv None [("x", Num 1)]))).
  { constructor; [intros [] | constructor]. }
  split.
  - exact H.
  - apply (lenv_put_names zeroed (Lenv None [("x", Num 1)]) "y" (Num 2) H).
Defined.

Lemma lenv_get_unbound_witness :
  bound "nope" (Lenv (Some (Lenv None [("x", Num 1)])) [("y", Num 2)]) = false
  /\ lenv_get zeroed (Lenv (Some (Lenv None [("x", Num 1)])) [("y", Num 2)]) "nope"
     = lval_err ("Unbound Symbol '" ++ "nope" ++ "'").
Proof.
  split.
  - reflexivity.
  - apply (lenv_get_unbound zeroed
             (Lenv (Some (Lenv None [("x", Num 1)])) [("y", Num 2)]) "nope").
    reflexivity.
Defined.


(** A closure with a bound name in its environment, copied. *)
Lemma lval_copy_idempotent_witness :
  float_free (Lambda (Lenv None [("x", Qexpr [Num 1; Sym "a"])])
                     (Qexpr [Sym "y"]) (Qexpr [Sym "+"; Sym "x"; Sym "y"])) = true
  /\ lval_copy zeroed
       (Lambda (Lenv None [("x", Qexpr [Num 1; Sym "a"])])
               (Qexpr [Sym "y"]) (Qexpr [Sym "+"; Sym "x"; Sym "y"]))
     = Lambda (Lenv None [("x", Qexpr [Num 1; Sym "a"])])
              (Qexpr [Sym "y"]) (Qexpr [Sym "+"; Sym "x"; Sym "y"])
  /\ lval_copy zeroed
       (lval_copy zeroed
          (Lambda (Lenv None [("x", Qexpr [Num 1; Sym "a"])])
                  (Qexpr [Sym "y"]) (Qexpr [Sym "+"; Sym "x"; Sym "y"])))
     = lval_copy zeroed
         (Lambda (Lenv None [("x", Qexpr [Num 1; Sym "a"])])
                 (Qexpr [Sym "y"]) (Qexpr [Sym "+"; Sym "x"; Sym "y"]))
  /\ type_of
       (lval_copy zeroed
          (Lambda (Lenv None [("x", Qexpr [Num 1; Sym "a"])])
                  (Qexpr [Sym "y"]) (Qexpr [Sym "+"; Sym "x"; Sym "y"])))
     = type_of
         (Lambda (Lenv None [("x", Qexpr [Num 1; Sym "a"])])
                 (Qexpr [Sym "y"]) (Qexpr [Sym "+"; Sym "x"; Sym "y"]))
  /\ count
       (cells
          (lval_copy zeroed
             (Lambda (Lenv None [("x", Qexpr [Num 1; Sym "a"])])
                     (Qexpr [Sym "y"]) (Qexpr [Sym "+"; Sym "x"; Sym "y"]))))
     = count
         (cells
            (Lambda (Lenv None [("x", Qexpr [Num 1; Sym "a"])])
                    (Qexpr [Sym "y"]) (Qexpr [Sym "+"; Sym "x"; Sym "y"]))).
Proof.
  split.
  - reflexivity.
  - apply (lval_copy_idempotent zeroed
             (Lambda (Lenv None [("x", Qexpr [Num 1; Sym "a"])])
                     (Qexpr [Sym "y"]) (Qexpr [Sym "+"; Sym "x"; Sym "y"]))).
    reflexivity.
Defined.

Lemma lenv_copy_same_lookups_witness :
  float_free
    (lenv_get zeroed (Lenv (Some (Lenv None [("g", Num 3)])) [("x", Qexpr [Num 1])]) "x")
  = true
  /\ par (lenv_copy zeroed (Lenv (Some (Lenv None [("g", Num 3)])) [("x", Qexpr [Num 1])]))
     = par (Lenv (Some (Lenv None [("g", Num 3)])) [("x", Qexpr [Num 1])])
  /\ names_of
       (lenv_copy zeroed (Lenv (Some (Lenv None [("g", Num 3)])) [("x", Qexpr [Num 1])]))
     = names_of (Lenv (Some (Lenv None [("g", Num 3)])) [("x", Qexpr [Num 1])])
  /\ lenv_get zeroed
       (lenv_copy zeroed (Lenv (Some (Lenv None [("g", Num 3)])) [("x", Qexpr [Num 1])]))
       "x"
     = lenv_get zeroed (Lenv (Some (Lenv None [("g", Num 3)])) [("x", Qexpr [Num 1])]) "x".
Proof.
  split.
  - reflexivity.
  - apply (lenv_copy_same_lookups zeroed
             (Lenv (Some (Lenv None [("g", Num 3)])) [("x", Qexpr [Num 1])]) "x").
    reflexivity.
Defined.

(** ** Cell arrays *)

Lemma lval_pop_in_range_witness :
  0 <= 1 < count [Num 1; Num 2; Num 3]
  /\ exists x,
      nth_error [Num 1; Num 2; Num 3] (Z.to_nat 1) = Some x
      /\ lval_pop [Num 1; Num 2; Num 3] 1
         = Ret (x, (firstn (Z.to_nat 1) [Num 1; Num 2; Num 3]
                    ++ skipn (S (Z.to_nat 1)) [Num 1; Num 2; Num 3])%list)
      /\ count (firstn (Z.to_nat 1) [Num 1; Num 2; Num 3]
                ++ skipn (S (Z.to_nat 1)) [Num 1; Num 2; Num 3])%list
         = count [Num 1; Num 2; Num 3] - 1.
Proof.
  assert (H : 0 <= 1 < count [Num 1; Num 2; Num 3]) by (unfold count; cbn; lia).
  split.
  - exact H.
  - apply (lval_pop_in_range [Num 1; Num 2; Num 3] 1 H).
Defined.

(** ** Arithmetic *)

Lemma negation_involutive_witness :
  in_long 5
  /\ builtin_op any_libm any_libm [Num 5] "-" = Ret (Num (wrap64 (- 5)))
  /\ builtin_op any_libm any_libm [Num (wrap64 (- 5))] "-" = Ret (Num 5)
  /\ builtin_op any_libm any_libm [Num LONG_MIN] "-" = Ret (Num LONG_MIN).
Proof.
  assert (H : in_long 5) by (unfold in_long, LONG_MIN, LONG_MAX; lia).
  split.
  - exact H.
  - apply (negation_involutive any_libm any_libm 5 H).
Defined.

(** [(% -7 2)] is -1. *)
Lemma integer_remainder_witness :
  (2 <> 0 /\ ~ (-7 = LONG_MIN /\ 2 = -1))
  /\ builtin_op any_libm any_libm [Num (-7); Num 2] "%" = Ret (Num (Z.rem (-7) 2))
  /\ Z.abs (Z.rem (-7) 2) < Z.abs 2
  /\ 0 <= Z.rem (-7) 2 * -7.
Proof.
  assert (H1 : 2 <> 0) by lia.
  assert (H2 : ~ (-7 = LONG_MIN /\ 2 = -1)) by (intros [_ H]; lia).
  split.
  - split; [exact H1 | exact H2].
  - apply (integer_remainder any_libm any_libm (-7) 2 H1 H2).
Defined.

(** [(/ 2.0 0)] *)
Lemma float_reduction_stays_float_witness :
  forallb is_number [Num 0] = true
  /\ exists d, builtin_op any_libm any_libm (Flt two :: [Num 0]) "/" = Ret (Flt d).
Proof.
  split.
  - reflexivity.
  - apply (float_reduction_stays_float any_libm any_libm "/" two [Num 0]).
    reflexivity.
Defined.

Lemma integer_round_in_range_witness :
  (in_long (2 ^ 62) /\ in_long 4 /\ long_op "*" (2 ^ 62) 4 = Next (Num 0))
  /\ in_long 0.
Proof.
  assert (H1 : in_long (2 ^ 62)) by (unfold in_long, LONG_MIN, LONG_MAX; lia).
  assert (H2 : in_long 4) by (unfold in_long, LONG_MIN, LONG_MAX; lia).
  split.
  - split; [exact H1 | split; [exact H2 | reflexivity]].
  - apply (integer_round_in_range "*" (2 ^ 62) 4 0 H1 H2). reflexivity.
Defined.

(** [(^ 2 -1)] *)
Lemma pow_exponent_as_int_witness :
  - 2 ^ 31 <= -1 < 0
  /\ builtin_op any_libm any_libm [Num 2; Num (-1)] "^" = Ret (Num 1)
  /\ builtin_op any_libm any_libm [Num 2; Num (-1 + 2 ^ 32)] "^" = Ret (Num 1)
  /\ forall e', builtin_op any_libm any_libm [Num 2; Num (e' + 2 ^ 32)] "^"
                = builtin_op any_libm any_libm [Num 2; Num e'] "^".
Proof.
  assert (H : - 2 ^ 31 <= -1 < 0) by lia.
  split.
  - exact H.
  - apply (pow_exponent_as_int any_libm any_libm 2 (-1) H).
Defined.

(** ** Evaluation and calls *)

(** [(1 2)] *)
Lemma sexpr_needs_function_witness :
  (eval_cells (eval_in 1%nat) ge [Num 1; Num 2] = Ret (ge, [Num 1; Num 2])
   /\ existsb is_err [Num 1; Num 2] = false
   /\ type_of (Num 1) <> LVAL_FUN)
  /\ eval_in 2%nat ge (Sexpr [Num 1; Num 2])
     = Ret (ge, lval_err ("S-Expression starts with incorrect type. Got "
                          ++ ltype_name (type_of (Num 1)) ++ ", Expected Function.")).
Proof.
  assert (H : type_of (Num 1) <> LVAL_FUN) by discriminate.
  split.
  - split; [reflexivity | split; [reflexivity | exact H]].
  - apply (sexpr_needs_function any_libm any_libm zeroed 1 ge ge
             [Num 1; Num 2] (Num 1) (Num 2) [] eq_refl eq_refl H).
Defined.

(** [(\ {x} {x})] called with [1 2]. *)
Lemma too_many_arguments_witness :
  (List.length ["x"] = List.length [Num 1] /\ no_marker ["x"] = true)
  /\ lval_call any_libm any_libm zeroed (eval_in 0%nat) ge
       (Lambda lenv_new (Qexpr (map Sym ["x"])) (Qexpr [Sym "x"]))
       ([Num 1] ++ Num 2 :: [])%list
     = Ret (ge, lval_err ("Function passed too many arguments. Got "
                          ++ fmt_int (count ([Num 1] ++ Num 2 :: [])%list)
                          ++ ", Expected " ++ fmt_int (count (map Sym ["x"])) ++ ".")).
Proof.
  split.
  - split; reflexivity.
  - apply (too_many_arguments any_libm any_libm zeroed (eval_in 0%nat) ge lenv_new
             ["x"] (Qexpr [Sym "x"]) [Num 1] (Num 2) []); reflexivity.
Defined.

(** [(\ {x} {x})] called with [1]. *)
Lemma saturated_call_witness :
  (List.length ["x"] = List.length [Num 1] /\ no_marker ["x"] = true)
  /\ lval_call any_libm any_libm zeroed (eval_in 2%nat) ge
       (Lambda lenv_new (Qexpr (map Sym ["x"])) (Qexpr [Sym "x"])) [Num 1]
     = ('(fe, r) <- builtin_eval (eval_in 2%nat)
                      (Lenv (Some ge) (binds (put_all zeroed lenv_new ["x"] [Num 1])))
                      [lval_copy zeroed (Qexpr [Sym "x"])] ;;
        Ret (caller_env fe ge, r)).
Proof.
  split.
  - split; reflexivity.
  - apply (saturated_call any_libm any_libm zeroed (eval_in 2%nat) ge lenv_new
             ["x"] (Qexpr [Sym "x"]) [Num 1]); reflexivity.
Defined.

Lemma identity_closure_witness :
  (("x" =? "&")%string = false /\ float_free (Qexpr [Num 7; Sym "a"]) = true)
  /\ lval_call any_libm any_libm zeroed (eval_in (2 + 0)%nat) ge
       (Lambda lenv_new (Qexpr [Sym "x"]) (Qexpr [Sym "x"])) [Qexpr [Num 7; Sym "a"]]
     = Ret (ge, Qexpr [Num 7; Sym "a"]).
Proof.
  split.
  - split; reflexivity.
  - apply (identity_closure any_libm any_libm zeroed 0 ge lenv_new "x"
             (Qexpr [Num 7; Sym "a"])); reflexivity.
Defined.

(** [(def {x y} 1 2)] and [(= {x y} 1 2)] *)
Lemma def_and_put_bind_in_order_witness :
  List.length ["x"; "y"] = List.length [Num 1; Num 2]
  /\ builtin_var zeroed ge (Qexpr (map Sym ["x"; "y"]) :: [Num 1; Num 2]) "def"
     = Ret (def_all zeroed ge ["x"; "y"] [Num 1; Num 2], Sexpr [])
  /\ builtin_var zeroed ge (Qexpr (map Sym ["x"; "y"]) :: [Num 1; Num 2]) "="
     = Ret (put_all zeroed ge ["x"; "y"] [Num 1; Num 2], Sexpr []).
Proof.
  split.
  - reflexivity.
  - apply (def_and_put_bind_in_order zeroed ge ["x"; "y"] [Num 1; Num 2]).
    reflexivity.
Defined.

(** [(def {x 1} 2 3)]: the Error, and nothing defined. *)
Lemma def_and_put_all_or_nothing_witness :
  builtin_var zeroed ge [Qexpr [Sym "x"; Num 1]; Num 2; Num 3] "def"
  = Ret (ge, Err "Function 'def' cannot define non-symbol. Got Number, Expected Symbol.")
  /\ (Err "Function 'def' cannot define non-symbol. Got Number, Expected Symbol."
      = Sexpr []
      \/ (is_err (Err "Function 'def' cannot define non-symbol. Got Number, Expected Symbol.")
          = true
          /\ ge = ge)).
Proof.
  split.
  - reflexivity.
  - apply (def_and_put_all_or_nothing zeroed ge ge
             [Qexpr [Sym "x"; Num 1]; Num 2; Num 3] "def"
             (Err "Function 'def' cannot define non-symbol. Got Number, Expected Symbol.")).
    reflexivity.
Defined.

(** [(cons 1 {})] *)
Lemma native_call_on_literals_witness :
  (lenv_get zeroed ge "cons" = Fun builtin_cons_p
   /\ forallb self_evaluating [Num 1; Qexpr []] = true
   /\ existsb is_err [Num 1; Qexpr []] = false)
  /\ eval_in (2 + 0)%nat ge (Sexpr (Sym "cons" :: Num 1 :: [Qexpr []]))
     = call_builtin any_libm any_libm zeroed (eval_in 1%nat) builtin_cons_p ge
         (Num 1 :: [Qexpr []]).
Proof.
  split.
  - repeat split.
  - apply (native_call_on_literals any_libm any_libm zeroed 0 ge "cons"
             builtin_cons_p (Num 1) [Qexpr []]); reflexivity.
Defined.

(** [(def {x} 10)], then [x]. *)
Lemma def_then_symbol_witness :
  (lenv_get zeroed ge "def" = Fun builtin_def_p
   /\ shadowed "x" ge = false
   /\ self_evaluating (Num 10) = true
   /\ is_err (Num 10) = false
   /\ float_free (Num 10) = true)
  /\ eval_in (2 + 0)%nat ge (Sexpr [Sym "def"; Qexpr [Sym "x"]; Num 10])
     = Ret (lenv_def zeroed ge "x" (Num 10), Sexpr [])
  /\ eval_in 1%nat (lenv_def zeroed ge "x" (Num 10)) (Sym "x")
     = Ret (lenv_def zeroed ge "x" (Num 10), Num 10).
Proof.
  split.
  - repeat split.
  - apply (def_then_symbol any_libm any_libm zeroed 0 0 ge "x" (Num 10));
      reflexivity.
Defined.

